(** * pipcook: the tracer (log line reassembly, trace hub, registry)
      and the costa runnable (plugin sandbox state machine)

    Shallow embedding of
      - the daemon's tracer service (classes [LogPassthrough], [Tracer],
        [TraceManager]), and
      - [packages/costa/src/runnable.ts] (class [PluginRunnable]).

    JavaScript objects become records that are passed explicitly; the
    closures the code registers as event listeners are defunctionalised
    into small inductive types; everything the program does to the outside
    world (client callbacks, console output, file system, IPC requests,
    signals) is recorded in order as a list of [Effect]s.  Code that can
    throw returns a [Completion]. *)

From Stdlib Require Import String Ascii List ZArith Bool Lia.
From stdpp Require Import base option list gmap strings.
Import ListNotations.
Local Open Scope string_scope.
Local Open Scope list_scope.

(** ** JavaScript values shared by both files *)

Module Js.

(** An [Error] object: its constructor name and its [message]. *)
Record Error := mkError { name : string; message : string }.

Definition TypeError (msg : string) : Error := mkError "TypeError" msg.

(** The completion of a call: it returns a value or throws. For an
    [async] function, [Throw] is the rejection of the returned promise. *)
Inductive Completion (A : Type) :=
| Return (a : A)
| Throw (e : Error).
Arguments Return {A} a.
Arguments Throw {A} e.

(** JavaScript truthiness of a possibly undefined string:
    [undefined] and [''] are falsy. *)
Definition truthy (s : option string) : bool :=
  match s with
  | None | Some "" => false
  | Some _ => true
  end.

(** Template-literal / [+] rendering of a possibly undefined string. *)
Definition str (s : option string) : string :=
  match s with
  | None => "undefined"
  | Some x => x
  end.

Definition is_line_terminator (c : ascii) : bool :=
  (Ascii.eqb c "010" || Ascii.eqb c "013")%bool.

(** [s.split(/\n|\r/)]: cut [s] at every character matched by the
    pattern. The result is never empty; [''.split(...)] is [['']]. *)
Fixpoint split (s : string) : list string :=
  match s with
  | EmptyString => [""]
  | String c s' =>
      if is_line_terminator c then "" :: split s'
      else match split s' with
           | [] => [String c ""]
           | x :: xs => String c x :: xs
           end
  end.

(** [list.pop()]: the list without its last element, and that element
    ([undefined] on an empty list). *)
Definition pop {A} (l : list A) : list A * option A :=
  (removelast l, last l).

End Js.

(** ** [string_decoder]

    [StringDecoder] belongs to the Node runtime, so the embedding takes it
    as an interface: a decoder state, [write], which returns the text that
    is complete so far and keeps an incomplete multi-byte sequence in the
    state, and [end], which returns whatever the kept bytes decode to. *)

Class StringDecoder := {
  chunk : Type;
  dstate : Type;
  decoder_new : dstate;
  decoder_write : dstate -> chunk -> dstate * string;
  decoder_end : dstate -> dstate * string;
}.

(** ** Trace events *)

Module Events.

Inductive TraceType := log | job_status.

Inductive LogLevel := info | warn | error.

Inductive StepAction := step_start | step_end.

(** [PipelineStatus] and [PluginTypeI] are enumerations of
    [@pipcook/pipcook-core]; the tracer only stores them. *)
Definition PipelineStatus := nat.
Definition PluginTypeI := string.

Record JobStatusData := {
  jobStatus : PipelineStatus;
  step : option PluginTypeI;
  stepAction : option StepAction;
  queueLength : option nat;
}.

Record LogData := { level : LogLevel; data : string }.

Inductive PipcookEvent :=
| JobStatusChangeEvent (d : JobStatusData)
| LogEvent (d : LogData).

Definition new_JobStatusChangeEvent (s : PipelineStatus) (st : option PluginTypeI)
    (a : option StepAction) (q : option nat) : PipcookEvent :=
  JobStatusChangeEvent
    {| jobStatus := s; step := st; stepAction := a; queueLength := q |}.

Definition new_LogEvent (l : LogLevel) (d : string) : PipcookEvent :=
  LogEvent {| level := l; data := d |}.

Definition type (e : PipcookEvent) : TraceType :=
  match e with
  | JobStatusChangeEvent _ => job_status
  | LogEvent _ => log
  end.

(** A client callback [cb : (data: PipcookEvent) => void] is known by an
    identifier; calling it is the effect [Call cb e]. *)
Definition Callback := nat.

(** The promises of the tracer: the two elements of the array [ends] of
    the [n]-th [listen] call (index 0 waits for stdout, index 1 for
    stderr), and the promise returned by [finish]. *)
Inductive Promise :=
| EndOf (generation : nat) (index : nat)
| Finished.

Inductive Effect :=
| Call (cb : Callback) (e : PipcookEvent)
| ConsoleError (msg : string)
| Debug (msg : string)
| Resolve (p : Promise)
| Uncaught (e : Js.Error).

(** The listeners registered in [Tracer.listen], as closures over their
    free variables. *)
Inductive DataListener :=
| OnLogData (lv : LogLevel) (cb : Callback).
    (* data => cb(new LogEvent(level, data)) *)

Inductive ErrorListener :=
| OnLogError (cb : Callback).
    (* err => cb(new LogEvent('error', err.message)) *)

Inductive CloseListener :=
| OnCloseResolve (p : Promise).
    (* resolve *)

(** What the runtime has still to emit for a stream. [destroy] does not
    emit 'error' and 'close' itself; they are emitted on a later tick,
    after the code that called [destroy] has run on. *)
Inductive Scheduled :=
| EmitError (e : Js.Error)
| EmitClose.

Definition run_data (line : string) (l : DataListener) : Effect :=
  match l with OnLogData lv cb => Call cb (new_LogEvent lv line) end.

Definition run_error (err : Js.Error) (l : ErrorListener) : Effect :=
  match l with OnLogError cb => Call cb (new_LogEvent error (Js.message err)) end.

Definition run_close (l : CloseListener) : Effect :=
  match l with OnCloseResolve p => Resolve p end.

Definition is_uncaught (e : Effect) : bool :=
  match e with
  | Uncaught _ => true
  | _ => false
  end.

(** No exception escaped to the process in this trace. *)
Definition none_uncaught (trace : list Effect) : bool :=
  forallb (fun e => negb (is_uncaught e)) trace.

End Events.

(** ** [LogPassthrough]: the line splitter

    [class LogPassthrough extends Transform], in object mode. The record
    holds the fields the class declares ([decoder], [last], [fileStream])
    and the part of the inherited stream state the program depends on:
    the queue of pushed lines not yet delivered, the written chunks that
    wait for a reader, the listeners, whether the stream was ended or
    destroyed, and what the runtime has still to emit for it. *)

Module LogPassthrough.
Import Events.

Section WithDecoder.
Context `{D : StringDecoder}.

(** The file sink made by [createWriteStream(filename, { flags: 'w+' })].
    [fs_closeListeners] are the closures [finish] registers for 'close';
    each is determined by the [err] it captured. *)
Record WriteStream := {
  filename : string;
  writable : bool;
  written : list chunk;
  fs_closeListeners : list (option Js.Error);
  fs_closed : bool;
}.

Definition createWriteStream (f : string) : WriteStream :=
  {| filename := f; writable := true; written := [];
     fs_closeListeners := []; fs_closed := false |}.

Definition fs_write (c : chunk) (w : WriteStream) : WriteStream :=
  {| filename := filename w; writable := writable w;
     written := written w ++ [c];
     fs_closeListeners := fs_closeListeners w; fs_closed := fs_closed w |}.

Definition fs_on_close (h : option Js.Error) (w : WriteStream) : WriteStream :=
  {| filename := filename w; writable := writable w; written := written w;
     fs_closeListeners := fs_closeListeners w ++ [h]; fs_closed := fs_closed w |}.

Definition fs_end (w : WriteStream) : WriteStream :=
  {| filename := filename w; writable := false; written := written w;
     fs_closeListeners := fs_closeListeners w; fs_closed := fs_closed w |}.

Definition fs_close (w : WriteStream) : WriteStream :=
  {| filename := filename w; writable := false; written := written w;
     fs_closeListeners := fs_closeListeners w; fs_closed := true |}.

Record t := {
  decoder : dstate;
  last : option string;
  fileStream : option WriteStream;
  readableBuffer : list string;
  dataListeners : list DataListener;
  errorListeners : list ErrorListener;
  closeListeners : list CloseListener;
  ended : bool;
  destroyed : bool;
  writableBuffer : list chunk;
  scheduled : list Scheduled;
}.

Definition with_splitter (d : dstate) (l : option string) (lp : t) : t :=
  {| decoder := d; last := l; fileStream := fileStream lp;
     readableBuffer := readableBuffer lp; dataListeners := dataListeners lp;
     errorListeners := errorListeners lp; closeListeners := closeListeners lp;
     ended := ended lp; destroyed := destroyed lp;
     writableBuffer := writableBuffer lp; scheduled := scheduled lp |}.

Definition with_fileStream (w : option WriteStream) (lp : t) : t :=
  {| decoder := decoder lp; last := last lp; fileStream := w;
     readableBuffer := readableBuffer lp; dataListeners := dataListeners lp;
     errorListeners := errorListeners lp; closeListeners := closeListeners lp;
     ended := ended lp; destroyed := destroyed lp;
     writableBuffer := writableBuffer lp; scheduled := scheduled lp |}.

Definition with_readableBuffer (b : list string) (lp : t) : t :=
  {| decoder := decoder lp; last := last lp; fileStream := fileStream lp;
     readableBuffer := b; dataListeners := dataListeners lp;
     errorListeners := errorListeners lp; closeListeners := closeListeners lp;
     ended := ended lp; destroyed := destroyed lp;
     writableBuffer := writableBuffer lp; scheduled := scheduled lp |}.

Definition with_listeners (ds : list DataListener) (es : list ErrorListener)
    (cs : list CloseListener) (lp : t) : t :=
  {| decoder := decoder lp; last := last lp; fileStream := fileStream lp;
     readableBuffer := readableBuffer lp; dataListeners := ds;
     errorListeners := es; closeListeners := cs;
     ended := ended lp; destroyed := destroyed lp;
     writableBuffer := writableBuffer lp; scheduled := scheduled lp |}.

Definition with_flags (e d : bool) (lp : t) : t :=
  {| decoder := decoder lp; last := last lp; fileStream := fileStream lp;
     readableBuffer := readableBuffer lp; dataListeners := dataListeners lp;
     errorListeners := errorListeners lp; closeListeners := closeListeners lp;
     ended := e; destroyed := d;
     writableBuffer := writableBuffer lp; scheduled := scheduled lp |}.

Definition with_writableBuffer (b : list chunk) (lp : t) : t :=
  {| decoder := decoder lp; last := last lp; fileStream := fileStream lp;
     readableBuffer := readableBuffer lp; dataListeners := dataListeners lp;
     errorListeners := errorListeners lp; closeListeners := closeListeners lp;
     ended := ended lp; destroyed := destroyed lp;
     writableBuffer := b; scheduled := scheduled lp |}.

Definition with_scheduled (l : list Scheduled) (lp : t) : t :=
  {| decoder := decoder lp; last := last lp; fileStream := fileStream lp;
     readableBuffer := readableBuffer lp; dataListeners := dataListeners lp;
     errorListeners := errorListeners lp; closeListeners := closeListeners lp;
     ended := ended lp; destroyed := destroyed lp;
     writableBuffer := writableBuffer lp; scheduled := l |}.

(** [constructor(filename?)]: a file sink only for a truthy file name. *)
Definition new (file : option string) : t :=
  {| decoder := decoder_new;
     last := None;
     fileStream := if Js.truthy file then Some (createWriteStream (Js.str file)) else None;
     readableBuffer := []; dataListeners := []; errorListeners := [];
     closeListeners := []; ended := false; destroyed := false;
     writableBuffer := []; scheduled := [] |}.

(** *** Inherited stream behaviour *)

(** [emit('data', line)]: every 'data' listener, in registration order. *)
Definition emit_data (lp : t) (line : string) : list Effect :=
  map (run_data line) (dataListeners lp).

(** [emit('error', err)]: an 'error' event nobody listens to is thrown. *)
Definition emit_error (lp : t) (err : Js.Error) : list Effect :=
  match errorListeners lp with
  | [] => [Uncaught err]
  | ls => map (run_error err) ls
  end.

Definition emit_close (lp : t) : list Effect :=
  map run_close (closeListeners lp).

(** While nobody listens for 'data' pushed lines wait in the queue; with
    a listener the queue is delivered in order. *)
Definition flow (lp : t) : t * list Effect :=
  match dataListeners lp with
  | [] => (lp, [])
  | _ => (with_readableBuffer [] lp, flat_map (emit_data lp) (readableBuffer lp))
  end.

(** [this.push(line)] *)
Definition push (line : string) (lp : t) : t * list Effect :=
  flow (with_readableBuffer (readableBuffer lp ++ [line]) lp).

(** [list.forEach(line => this.push(line))] *)
Fixpoint push_each (lines : list string) (lp : t) : t * list Effect :=
  match lines with
  | [] => (lp, [])
  | line :: rest =>
      let '(lp1, e1) := push line lp in
      let '(lp2, e2) := push_each rest lp1 in
      (lp2, e1 ++ e2)
  end.

(** [stream.destroy(err?)]: marks the stream destroyed, once. The runtime
    emits 'error' (when one was given) and then 'close' on a later tick:
    see [tick]. *)
Definition destroy (err : option Js.Error) (lp : t) : t :=
  if destroyed lp then lp
  else with_scheduled
         (scheduled lp
            ++ match err with
               | Some e => [EmitError e]
               | None => []
               end
            ++ [EmitClose])
         (with_flags (ended lp) true lp).

Definition run_scheduled (lp : t) (s : Scheduled) : list Effect :=
  match s with
  | EmitError e => emit_error lp e
  | EmitClose => emit_close lp
  end.

(** The next tick of the runtime: what was scheduled for the stream is
    emitted, to the listeners there are by then. *)
Definition tick (lp : t) : t * list Effect :=
  (with_scheduled [] lp, flat_map (run_scheduled lp) (scheduled lp)).

(** *** The methods of the class *)

(** [if (this.last === undefined) { this.last = ''; }] *)
Definition carry (lp : t) : string :=
  match last lp with
  | None => ""
  | Some s => s
  end.

Definition _transform (c : chunk) (lp : t) : t * list Effect :=
  let last0 := carry lp in
  let '(d, text) := decoder_write (decoder lp) c in
  let '(list, l) := Js.pop (Js.split (last0 +:+ text)) in
  push_each list (with_splitter d l lp).

Definition _flush (lp : t) : t * list Effect :=
  let '(d, rest) := decoder_end (decoder lp) in
  let l := if Js.truthy (last lp) then Js.str (last lp) +:+ rest else rest in
  let lp1 := with_splitter d (Some l) lp in
  if Js.truthy (Some l) then push l lp1 else (lp1, []).

(** Feeding a sequence of chunks, one [_transform] call per chunk. *)
Fixpoint feed (cs : list chunk) (lp : t) : t * list Effect :=
  match cs with
  | [] => (lp, [])
  | c :: rest =>
      let '(lp1, e1) := _transform c lp in
      let '(lp2, e2) := feed rest lp1 in
      (lp2, e1 ++ e2)
  end.

(** *** When the runtime calls [_transform] and [_flush]

    The stream is in object mode: its readable side holds up to
    [highWaterMark] = 16 objects. While nobody reads and that many lines
    wait, or written chunks wait already, a written chunk is not given
    to [_transform]: it waits in the writable buffer until somebody
    reads. *)
Definition highWaterMark : nat := 16.

Definition stalled (lp : t) : bool :=
  match dataListeners lp with
  | [] => ((highWaterMark <=? length (readableBuffer lp))%nat
           || negb (length (writableBuffer lp) =? 0)%nat)%bool
  | _ :: _ => false
  end.

(** Written chunks wait and nobody reads: [_flush] has to wait too. *)
Definition waiting (lp : t) : bool :=
  match dataListeners lp, writableBuffer lp with
  | [], _ :: _ => true
  | _, _ => false
  end.

(** [stream.end()]: runs [_flush] once the written chunks are through;
    while some wait, the stream is only marked. A second call has nothing
    left to do. *)
Definition end_ (lp : t) : t * list Effect :=
  if (ended lp || destroyed lp)%bool then (lp, [])
  else if waiting lp then (with_flags true (destroyed lp) lp, [])
  else let '(lp1, e1) := _flush lp in (with_flags true (destroyed lp1) lp1, e1).

(** [super.write(chunk, ...)]. A destroyed stream drops the chunk and
    emits nothing; a write after [end()] is reported as an 'error' event
    and leaves the stream as it is; a stalled stream keeps the chunk for
    later. *)
Definition super_write (c : chunk) (lp : t) : t * list Effect :=
  if destroyed lp then (lp, [])
  else if ended lp then (lp, emit_error lp (Js.mkError "Error" "write after end"))
  else if stalled lp then (with_writableBuffer (writableBuffer lp ++ [c]) lp, [])
  else _transform c lp.

Definition write (c : chunk) (lp : t) : t * list Effect :=
  let fs := match fileStream lp with
            | Some w => if writable w then Some (fs_write c w) else Some w
            | None => None
            end in
  super_write c (with_fileStream fs lp).

Definition writeLine (mk : string -> chunk) (line : string) (lp : t) : t * list Effect :=
  write (mk (line +:+ String "010" "")) lp.

(** Somebody has started to read: the chunks that waited are given to
    [_transform] in their order, and [_flush] runs if [end()] was called
    while they waited. *)
Definition drain (lp : t) : t * list Effect :=
  if destroyed lp then (lp, [])
  else match writableBuffer lp with
       | [] => (lp, [])
       | cs =>
           let '(lp1, e1) := feed cs (with_writableBuffer [] lp) in
           if ended lp1
           then let '(lp2, e2) := _flush lp1 in (lp2, e1 ++ e2)
           else (lp1, e1)
       end.

(** [on('data', l)]: the stream starts to flow, to the new listener as to
    the others. *)
Definition on_data (l : DataListener) (lp : t) : t * list Effect :=
  let '(lp1, e1) :=
    flow (with_listeners (dataListeners lp ++ [l]) (errorListeners lp)
            (closeListeners lp) lp) in
  let '(lp2, e2) := drain lp1 in
  (lp2, e1 ++ e2).

Definition on_error (l : ErrorListener) (lp : t) : t :=
  with_listeners (dataListeners lp) (errorListeners lp ++ [l]) (closeListeners lp) lp.

Definition on_close (l : CloseListener) (lp : t) : t :=
  with_listeners (dataListeners lp) (errorListeners lp) (closeListeners lp ++ [l]) lp.

(** The message [`unhandled error from log: ${err.message}`]. *)
Definition unhandled (e : Js.Error) : string :=
  "unhandled error from log: " +:+ Js.message e.

(** The local function [destoryAndResolve] of [finish]. *)
Definition destoryAndResolve (err : option Js.Error) (lp : t) : t * list Effect :=
  match err with
  | Some e =>
      if (0 <? length (errorListeners lp))%nat then
        (destroy (Some e) lp, [Resolve Finished])
      else
        (destroy None lp, [ConsoleError (unhandled e); Resolve Finished])
  | None =>
      (destroy None lp, [Resolve Finished])
  end.

(** [finish(err?)]: the returned promise is resolved by the effect
    [Resolve Finished]. With a file sink that happens in the sink's
    'close' listener, see [fileStream_close]. *)
Definition finish (err : option Js.Error) (lp : t) : t * list Effect :=
  let '(lp1, e1) := end_ lp in
  match fileStream lp1 with
  | Some w =>
      (with_fileStream (Some (fs_end (fs_on_close err w))) lp1, e1)
  | None =>
      let '(lp2, e2) := destoryAndResolve err lp1 in
      (lp2, e1 ++ e2)
  end.

(** The 'close' listeners registered by [finish], run in order:
    [() => { this.fileStream.close(); destoryAndResolve(); }]. *)
Fixpoint run_fs_close (hs : list (option Js.Error)) (lp : t) : t * list Effect :=
  match hs with
  | [] => (lp, [])
  | err :: rest =>
      let lp0 := with_fileStream (fs_close <$> fileStream lp) lp in
      let '(lp1, e1) := destoryAndResolve err lp0 in
      let '(lp2, e2) := run_fs_close rest lp1 in
      (lp2, e1 ++ e2)
  end.

(** The file sink emits 'close'. The runtime does so once, for a sink
    that was ended ([end()] has flushed the file): a sink that is still
    open for writing, or that has closed already, emits nothing, and a
    listener registered on a closed sink is never run. *)
Definition fileStream_close (lp : t) : t * list Effect :=
  match fileStream lp with
  | Some w =>
      if (writable w || fs_closed w)%bool then (lp, [])
      else run_fs_close (fs_closeListeners w) (with_fileStream (Some (fs_close w)) lp)
  | None => (lp, [])
  end.

(** [finish] followed by the 'close' event of the file sink. *)
Definition finish_and_close (err : option Js.Error) (lp : t) : t * list Effect :=
  let '(lp1, e1) := finish err lp in
  let '(lp2, e2) := fileStream_close lp1 in
  (lp2, e1 ++ e2).

(** The listeners and the file sink of a stream. *)
Definition wiring (lp : t) :=
  (dataListeners lp, errorListeners lp, closeListeners lp, fileStream lp).

(** The file sink, if there is one, has not closed. *)
Definition sink_open (lp : t) : bool :=
  match fileStream lp with
  | Some w => negb (fs_closed w)
  | None => true
  end.

End WithDecoder.
Arguments t {D}.
Arguments WriteStream {D}.
End LogPassthrough.

(** ** [Tracer]: the trace hub *)

Module Tracer.
Import Events.

Section WithDecoder.
Context `{D : StringDecoder}.

Record TraceOptions := {
  stdoutFile : option string;
  stderrFile : option string;
}.

(** [waiterForEnd] is undefined until [listen] runs; then it is
    [Promise.all(ends)] for the [ends] of the latest call, named by the
    number of that call. [listens] counts the calls. *)
Record t := {
  id : string;
  stdout : LogPassthrough.t;
  stderr : LogPassthrough.t;
  dispatcher : list Callback;
  waiterForEnd : option nat;
  listens : nat;
}.

Definition with_streams (o r : LogPassthrough.t) (tr : t) : t :=
  {| id := id tr; stdout := o; stderr := r; dispatcher := dispatcher tr;
     waiterForEnd := waiterForEnd tr; listens := listens tr |}.

(** [constructor(opts?)]; [fresh] is the value of [generateId()]. *)
Definition new (fresh : string) (opts : option TraceOptions) : t :=
  {| id := fresh;
     dispatcher := [];
     stdout := LogPassthrough.new (opts ≫= stdoutFile);
     stderr := LogPassthrough.new (opts ≫= stderrFile);
     waiterForEnd := None;
     listens := 0 |}.

Definition getLogger (tr : t) : LogPassthrough.t * LogPassthrough.t :=
  (stdout tr, stderr tr).

(** The local function [pipeLog] of [listen]. *)
Definition pipeLog (cb : Callback) (lv : LogLevel) (logger : LogPassthrough.t)
    : LogPassthrough.t * list Effect :=
  let '(l1, e1) := LogPassthrough.on_data (OnLogData lv cb) logger in
  (LogPassthrough.on_error (OnLogError cb) l1, e1).

Definition listen (cb : Callback) (tr : t) : t * list Effect :=
  let '(o1, e1) := pipeLog cb info (stdout tr) in
  let '(r1, e2) := pipeLog cb warn (stderr tr) in
  let g := listens tr in
  let o2 := LogPassthrough.on_close (OnCloseResolve (EndOf g 0)) o1 in
  let r2 := LogPassthrough.on_close (OnCloseResolve (EndOf g 1)) r1 in
  ({| id := id tr; stdout := o2; stderr := r2;
      dispatcher := dispatcher tr ++ [cb];
      waiterForEnd := Some g; listens := S g |},
   e1 ++ e2).

(** [dispatcher.emit('trace-event', event)] *)
Definition dispatch (event : PipcookEvent) (tr : t) : list Effect :=
  map (fun cb => Call cb event) (dispatcher tr).


(** [destroy(err?)]: the two [finish] calls are made in array order.
    The result keeps one trace per element of the [Promise.all] array,
    stderr first. *)
Definition destroy (err : option Js.Error) (tr : t)
    : t * (list Effect * list Effect) :=
  let '(r, e_stderr) := LogPassthrough.finish err (stderr tr) in
  let '(o, e_stdout) := LogPassthrough.finish None (stdout tr) in
  (with_streams o r tr, (e_stderr, e_stdout)).

(** The file sinks emit 'close'. *)
Definition files_closed (tr : t) : t * (list Effect * list Effect) :=
  let '(r, e_stderr) := LogPassthrough.fileStream_close (stderr tr) in
  let '(o, e_stdout) := LogPassthrough.fileStream_close (stdout tr) in
  (with_streams o r tr, (e_stderr, e_stdout)).

(** The next tick of the runtime, for both streams. *)
Definition tick (tr : t) : t * (list Effect * list Effect) :=
  let '(r, e_stderr) := LogPassthrough.tick (stderr tr) in
  let '(o, e_stdout) := LogPassthrough.tick (stdout tr) in
  (with_streams o r tr, (e_stderr, e_stdout)).

(** [destroy] followed by the 'close' events of the file sinks. *)
Definition destroy_and_close (err : option Js.Error) (tr : t)
    : t * (list Effect * list Effect) :=
  let '(t1, (a1, b1)) := destroy err tr in
  let '(t2, (a2, b2)) := files_closed t1 in
  (t2, (a1 ++ a2, b1 ++ b2)).




End WithDecoder.
Arguments t {D}.
End Tracer.

(** ** [TraceManager]: the registry *)

Module TraceManager.
Import Events.

Section WithDecoder.
Context `{D : StringDecoder}.

(** [tracerMap = new Map<string, Tracer>()] *)
Definition empty : gmap string Tracer.t := ∅.

(** [create(opts?)]; [fresh] is the id the new tracer draws. *)
Definition create (fresh : string) (opts : option Tracer.TraceOptions) (m : gmap string Tracer.t)
    : gmap string Tracer.t * Tracer.t :=
  let tracer := Tracer.new fresh opts in
  (<[Tracer.id tracer := tracer]> m, tracer).

Definition get (id : string) (m : gmap string Tracer.t) : option Tracer.t := m !! id.

(** What [destroy] leaves behind: the registry, the debug output, and,
    for a registered id, the tracer after [Tracer.destroy] with the two
    traces of that call. *)
Record Destroyed := {
  tracerMap : gmap string Tracer.t;
  logged : list Effect;
  destroyed : option (Tracer.t * (list Effect * list Effect));
}.

Definition destroy (id : string) (err : option Js.Error) (m : gmap string Tracer.t)
    : Js.Completion Destroyed :=
  match m !! id with
  | Some tracer =>
      let m1 := delete id m in
      Js.Return {| tracerMap := m1; logged := [];
                   destroyed := Some (Tracer.destroy err tracer) |}
  | None =>
      Js.Return {| tracerMap := m;
                   logged := [Debug ("tracer " +:+ id +:+ " not found for destroy")];
                   destroyed := None |}
  end.

End WithDecoder.
End TraceManager.

(** ** [PluginRunnable]: the sandbox of one plugin

    The runnable talks to the file system ([fs-extra]), to the child
    process it forks, and to the IPC proxy ([./ipc-proxy]). None of them
    is part of the class: the embedding takes them as a [World] that
    answers every request, by returning or by throwing. A request the
    proxy gives up on after its timeout is a request that throws. *)

Module PluginRunnable.
Import Js.

Definition dquote : string := String "034" EmptyString.

(** wait 1000ms for the child process to finish *)
Definition waitForDestroyed : Z := 1000.

(** default PLNR (Plugin Load Not Responding) timeout *)
Definition defaultPluginLoadNotRespondingTimeout : Z := 10 * 1000.

Inductive State := init | idle | busy | error.

Inductive Signal := SIGTERM | SIGKILL.

Record RunnableResponse := { resp_id : string }.

Record PluginPackage := { pkg_name : string }.

(** [rt.options] *)
Record RuntimeOptions := { installDir : string; componentDir : string }.

(** The handle returned by [fork]: whether its IPC channel is connected,
    and the signals sent to it with [kill]. *)
Record ChildProcess := {
  pid : nat;
  connected : bool;
  signals : list Signal;
}.

(** The proxy returned by [setup(handle)]. *)
Record Entry := { proxied : nat }.

Record BootstrapArg := {
  customEnv : list (string * string);
  pluginLoadNotRespondingTimeout_arg : option Z;
}.

(** Arguments passed through to the plugin are opaque. *)
Definition Arg := string.

(** What the runnable asks of the outside, in order. *)
Inductive Request :=
| DebugLog (msg : string)
| EnsureDir (dir : string)
| EnsureSymlink (src dst : string)
| Fork (cwd : string) (env : list (string * string))
| PipeLog (child : nat) (stream : string)
| Handshake (id : string)
| Load (pkg : PluginPackage) (timeout : Z)
| Start (pkg : PluginPackage) (args : list Arg)
| ValueOf (resp : RunnableResponse)
| Destroy (timeout : Z)
| Kill (child : nat) (sig : Signal).

Class World := {
  world : Type;
  path_join : list string -> string;
  path_parse_dir : string -> string;
  fs_ensureDir : string -> world -> world * Completion unit;
  fs_ensureSymlink : string -> string -> world -> world * Completion unit;
  child_fork : string -> list (string * string) -> world -> world * ChildProcess;
  ipc_handshake : string -> world -> world * Completion bool;
  ipc_load : PluginPackage -> Z -> world -> world * Completion unit;
  ipc_start : PluginPackage -> list Arg -> world -> world * Completion (option RunnableResponse);
  ipc_valueOf : RunnableResponse -> world -> world * Completion string;
  ipc_destroy : Z -> world -> world * Completion unit;
}.

Record t := {
  rt : RuntimeOptions;
  handle : option ChildProcess;
  ipcProxy : option Entry;
  pluginLoadNotRespondingTimeout : Z;
  id : string;
  workingDir : string;
  dataDir : string;
  state : State;
  canceled : option bool;
}.

Definition with_state (s : State) (r : t) : t :=
  {| rt := rt r; handle := handle r; ipcProxy := ipcProxy r;
     pluginLoadNotRespondingTimeout := pluginLoadNotRespondingTimeout r;
     id := id r; workingDir := workingDir r; dataDir := dataDir r;
     state := s; canceled := canceled r |}.

Definition with_canceled (c : option bool) (r : t) : t :=
  {| rt := rt r; handle := handle r; ipcProxy := ipcProxy r;
     pluginLoadNotRespondingTimeout := pluginLoadNotRespondingTimeout r;
     id := id r; workingDir := workingDir r; dataDir := dataDir r;
     state := state r; canceled := c |}.

Definition with_timeout (z : Z) (r : t) : t :=
  {| rt := rt r; handle := handle r; ipcProxy := ipcProxy r;
     pluginLoadNotRespondingTimeout := z;
     id := id r; workingDir := workingDir r; dataDir := dataDir r;
     state := state r; canceled := canceled r |}.

Definition with_child (h : option ChildProcess) (p : option Entry) (r : t) : t :=
  {| rt := rt r; handle := h; ipcProxy := p;
     pluginLoadNotRespondingTimeout := pluginLoadNotRespondingTimeout r;
     id := id r; workingDir := workingDir r; dataDir := dataDir r;
     state := state r; canceled := canceled r |}.

Definition State_eqb (a b : State) : bool :=
  match a, b with
  | init, init | idle, idle | busy, busy | error, error => true
  | _, _ => false
  end.

Section WithWorld.
Context `{W : World}.

(** *** The monad of the methods: the world, [this], the requests made
    so far; a method returns or throws. *)

Record Machine := {
  the_world : world;
  this : t;
  trace : list Request;
}.

Definition M (A : Type) : Type := Machine -> Machine * Completion A.

Definition ret {A} (a : A) : M A := fun m => (m, Return a).

Definition throw {A} (e : Error) : M A := fun m => (m, Throw e).

Definition bind {A B} (c : M A) (k : A -> M B) : M B :=
  fun m =>
    match c m with
    | (m1, Return a) => k a m1
    | (m1, Throw e) => (m1, Throw e)
    end.

(** [try { c } catch (err) { h err }] *)
Definition try_catch {A} (c : M A) (h : Error -> M A) : M A :=
  fun m =>
    match c m with
    | (m1, Return a) => (m1, Return a)
    | (m1, Throw e) => h e m1
    end.

Definition read {A} (f : t -> A) : M A :=
  fun m => (m, Return (f (this m))).

Definition update (f : t -> t) : M unit :=
  fun m => ({| the_world := the_world m; this := f (this m); trace := trace m |},
            Return tt).

(** Make a request: it is recorded, and the world answers it. *)
Definition request {A} (q : Request) (answer : world -> world * Completion A) : M A :=
  fun m =>
    let '(w1, a) := answer (the_world m) in
    ({| the_world := w1; this := this m; trace := trace m ++ [q] |}, a).

Definition debug (msg : string) : M unit :=
  request (DebugLog msg) (fun w => (w, Return tt)).

Definition ensureDir (dir : string) : M unit :=
  request (EnsureDir dir) (fs_ensureDir dir).

Definition ensureSymlink (src dst : string) : M unit :=
  request (EnsureSymlink src dst) (fs_ensureSymlink src dst).

(** A method call on [this.ipcProxy], which is [null] before
    [bootstrap]: reading a property of [null] throws a [TypeError]. *)
Definition on_proxy {A} (method : string) (call : M A) : M A :=
  bind (read ipcProxy) (fun p =>
    match p with
    | None => throw (TypeError ("Cannot read property '" +:+ method +:+ "' of null"))
    | Some _ => call
    end).

(** [await Promise.all([a, b])] of two requests: both are made, and the
    call throws when one of them did. *)
Definition attempt {A} (c : M A) : M (Completion A) :=
  fun m => let '(m1, r) := c m in (m1, Return r).

Definition all2 (a b : M unit) : M unit :=
  bind (attempt a) (fun ra =>
  bind (attempt b) (fun rb =>
    match ra, rb with
    | Throw e, _ => throw e
    | _, Throw e => throw e
    | Return _, Return _ => ret tt
    end)).

End WithWorld.

Notation "x <- c ;; k" := (bind c (fun x => k))
  (at level 100, c at next level, right associativity).
Notation "c ;; k" := (bind c (fun _ => k))
  (at level 100, right associativity).

Section Methods.
Context `{W : World}.

(** [constructor(rt, logger?, id?)]; [fresh] is the value [generateId()]
    would give. The logger is only handed on to [pipeLog]. *)
Definition new (options : RuntimeOptions) (given : option string) (fresh : string) : t :=
  let i := if truthy given then str given else fresh in
  let wd := path_join [componentDir options; i] in
  {| rt := options; handle := None; ipcProxy := None;
     pluginLoadNotRespondingTimeout := defaultPluginLoadNotRespondingTimeout;
     id := i; workingDir := wd; dataDir := path_join [wd; "data"];
     state := init; canceled := None |}.

Definition Z_truthy (z : option Z) : bool :=
  match z with
  | None => false
  | Some v => negb (v =? 0)%Z
  end.

Definition bootstrap (arg : BootstrapArg) : M unit :=
  compPath <- read workingDir ;;
  (if Z_truthy (pluginLoadNotRespondingTimeout_arg arg)
   then update (with_timeout (default 0%Z (pluginLoadNotRespondingTimeout_arg arg)))
   else ret tt) ;;
  debug "make sure the component dir is existed." ;;
  dd <- read dataDir ;;
  all2 (ensureDir (compPath +:+ "/node_modules")) (ensureDir dd) ;;
  i <- read id ;;
  debug ("bootstrap a new process for " +:+ i +:+ ".") ;;
  child <- request (Fork compPath (customEnv arg))
             (fun w => let '(w1, c) := child_fork compPath (customEnv arg) w in
                       (w1, Return c)) ;;
  update (fun r => with_child (Some child) (ipcProxy r) r) ;;
  request (PipeLog (pid child) "stdout") (fun w => (w, Return tt)) ;;
  request (PipeLog (pid child) "stderr") (fun w => (w, Return tt)) ;;
  update (fun r => with_child (handle r) (Some {| proxied := pid child |}) r) ;;
  ok <- on_proxy "handshake" (request (Handshake i) (ipc_handshake i)) ;;
  if negb ok
  then throw (TypeError ("created runnable " +:+ dquote +:+ i +:+ dquote +:+ " failed."))
  else update (with_state idle).

Definition valueOf (resp : RunnableResponse) : M string :=
  on_proxy "valueOf" (request (ValueOf resp) (ipc_valueOf resp)).

Definition start (pkg : PluginPackage) (args : list Arg) : M (option RunnableResponse) :=
  st <- read state ;;
  i <- read id ;;
  if negb (State_eqb st idle)
  then throw (TypeError ("the runnable " +:+ dquote +:+ i +:+ dquote
                           +:+ " is busy or not ready now"))
  else
    update (with_state busy) ;;
    options <- read rt ;;
    let compPath := path_join [componentDir options; i] in
    let nameSchema_dir := path_parse_dir (pkg_name pkg) in
    ensureDir compPath ;;
    ensureDir (compPath +:+ "/node_modules") ;;
    (if truthy (Some nameSchema_dir)
     then ensureDir (compPath +:+ "/node_modules/" +:+ nameSchema_dir)
     else ret tt) ;;
    ensureSymlink
      (path_join [installDir options; "node_modules"; pkg_name pkg])
      (compPath +:+ "/node_modules/" +:+ pkg_name pkg) ;;
    debug ("env is ready, start loading the plugin(" +:+ pkg_name pkg +:+ ") at "
             +:+ i +:+ ".") ;;
    timeout <- read pluginLoadNotRespondingTimeout ;;
    on_proxy "load" (request (Load pkg timeout) (ipc_load pkg timeout)) ;;
    debug ("loaded the plugin(" +:+ pkg_name pkg +:+ "), start it at " +:+ i +:+ ".") ;;
    result <- on_proxy "start" (request (Start pkg args) (ipc_start pkg args)) ;;
    update (with_state idle) ;;
    ret result.

(** [this.handle.kill(sig)] on the handle [c] *)
Definition kill (c : ChildProcess) (sig : Signal) : M unit :=
  update (fun r =>
    with_child (Some {| pid := pid c; connected := connected c;
                        signals := signals c ++ [sig] |}) (ipcProxy r) r) ;;
  request (Kill (pid c) sig) (fun w => (w, Return tt)).

Definition destroy : M unit :=
  h <- read handle ;;
  match h with
  | None => throw (TypeError "Cannot read property 'connected' of null")
  | Some c =>
      if negb (connected c) then ret tt
      else
        update (with_canceled (Some true)) ;;
        try_catch
          (on_proxy "destroy"
             (request (Destroy waitForDestroyed) (ipc_destroy waitForDestroyed)))
          (fun err => update (with_state error) ;; kill c SIGKILL)
  end.

(** A machine in which nothing was requested yet. *)
Definition boot (w : world) (r : t) : Machine :=
  {| the_world := w; this := r; trace := [] |}.

End Methods.

(** *** A world for examples

    The answers are fixed in advance; paths are joined with [/]. *)

Record Script := {
  on_ensureDir : Completion unit;
  on_ensureSymlink : Completion unit;
  on_handshake : Completion bool;
  on_load : Completion unit;
  on_start : Completion (option RunnableResponse);
  on_destroy : Completion unit;
}.

Fixpoint has_slash (s : string) : bool :=
  match s with
  | EmptyString => false
  | String c s' => (Ascii.eqb c "/" || has_slash s')%bool
  end.

Fixpoint dirname (s : string) : string :=
  match s with
  | EmptyString => EmptyString
  | String c s' => if has_slash s' then String c (dirname s') else EmptyString
  end.

Definition scripted (s : Script) : World :=
  {| world := unit;
     path_join := String.concat "/";
     path_parse_dir := dirname;
     fs_ensureDir := fun _ w => (w, on_ensureDir s);
     fs_ensureSymlink := fun _ _ w => (w, on_ensureSymlink s);
     child_fork := fun _ _ w => (w, {| pid := 1; connected := true; signals := [] |});
     ipc_handshake := fun _ w => (w, on_handshake s);
     ipc_load := fun _ _ w => (w, on_load s);
     ipc_start := fun _ _ w => (w, on_start s);
     ipc_valueOf := fun _ w => (w, Return "");
     ipc_destroy := fun _ w => (w, on_destroy s) |}.

Definition all_well : Script :=
  {| on_ensureDir := Return tt; on_ensureSymlink := Return tt;
     on_handshake := Return true; on_load := Return tt;
     on_start := Return (Some {| resp_id := "r1" |});
     on_destroy := Return tt |}.

Definition with_load (c : Completion unit) (s : Script) : Script :=
  {| on_ensureDir := on_ensureDir s; on_ensureSymlink := on_ensureSymlink s;
     on_handshake := on_handshake s; on_load := c;
     on_start := on_start s; on_destroy := on_destroy s |}.

Definition with_start (c : Completion (option RunnableResponse)) (s : Script) : Script :=
  {| on_ensureDir := on_ensureDir s; on_ensureSymlink := on_ensureSymlink s;
     on_handshake := on_handshake s; on_load := on_load s;
     on_start := c; on_destroy := on_destroy s |}.

Definition with_destroy (c : Completion unit) (s : Script) : Script :=
  {| on_ensureDir := on_ensureDir s; on_ensureSymlink := on_ensureSymlink s;
     on_handshake := on_handshake s; on_load := on_load s;
     on_start := on_start s; on_destroy := c |}.

(** The plugin does not load within the timeout; the plugin throws when
    it runs; the child does not answer [destroy] in time. *)
Definition load_times_out : Script :=
  with_load (Throw (mkError "Error" "plugin load not responding")) all_well.

Definition plugin_throws : Script :=
  with_start (Throw (mkError "Error" "plugin failed")) all_well.

Definition destroy_times_out : Script :=
  with_destroy (Throw (mkError "Error" "destroy timeout")) all_well.

Definition sample_options : RuntimeOptions :=
  {| installDir := "/pipcook/plugins"; componentDir := "/pipcook/components" |}.

Definition sample_arg : BootstrapArg :=
  {| customEnv := []; pluginLoadNotRespondingTimeout_arg := None |}.

Definition sample_pkg : PluginPackage :=
  {| pkg_name := "@pipcook/plugins-csv-data-collect" |}.

(** A runnable fresh from the constructor, and the same after a
    successful [bootstrap], in the world of a script. *)
Definition fresh_machine (s : Script) : @Machine (scripted s) :=
  boot (W := scripted s) tt (new (W := scripted s) sample_options None "job1").

Definition ready_machine (s : Script) : @Machine (scripted s) :=
  fst (bootstrap (W := scripted s) sample_arg (fresh_machine s)).

End PluginRunnable.

(** ** Two decoders

    [text_decoder]: the chunks are strings already; [write] hands a string
    back as it is and [end] has nothing to add.

    [utf8_decoder]: the chunks are byte buffers of well-formed UTF-8 cut
    at arbitrary places. [write] returns the complete characters and keeps
    the bytes of a character that is cut short; [end] turns kept bytes
    into U+FFFD. (The decoder of the runtime also repairs malformed input;
    that part is not needed here.) Text is kept as its UTF-8 bytes. *)

Definition text_decoder : StringDecoder :=
  {| chunk := string; dstate := unit; decoder_new := tt;
     decoder_write := fun d s => (d, s);
     decoder_end := fun d => (d, "") |}.

Module Utf8.

(** Bytes a character takes, by its first byte; 0 for a continuation
    byte. *)
Definition need (c : ascii) : nat :=
  let n := nat_of_ascii c in
  if (n <? 128)%nat then 1
  else if (n <? 192)%nat then 0
  else if (n <? 224)%nat then 2
  else if (n <? 240)%nat then 3
  else 4.

(** The complete characters of [s], and the cut-short rest. *)
Fixpoint cut (s : string) : string * string :=
  match s with
  | EmptyString => (EmptyString, EmptyString)
  | String c s' =>
      if (String.length s <? need c)%nat then (EmptyString, s)
      else let '(a, b) := cut s' in (String c a, b)
  end.

Definition replacement : string :=
  String "239" (String "191" (String "189" EmptyString)).

Definition write (kept : string) (buf : string) : string * string :=
  let '(text, rest) := cut (kept +:+ buf) in (rest, text).

Definition end_ (kept : string) : string * string :=
  (EmptyString, match kept with EmptyString => EmptyString | _ => replacement end).

End Utf8.

Definition utf8_decoder : StringDecoder :=
  {| chunk := string; dstate := string; decoder_new := "";
     decoder_write := Utf8.write;
     decoder_end := Utf8.end_ |}.

(** ** What the specification says a line splitter does

    These definitions follow the wording of the specification, not the
    code: the code is compared with them below. *)

Module LineSpec.

Fixpoint no_terminator (s : string) : bool :=
  match s with
  | EmptyString => true
  | String c s' => (negb (Js.is_line_terminator c) && no_terminator s')%bool
  end.

(** The number of line terminators in a text. *)
Fixpoint terminators (s : string) : nat :=
  match s with
  | EmptyString => 0
  | String c s' => (if Js.is_line_terminator c then 1 else 0) + terminators s'
  end.

(** [Segments buf lines rest]: cutting [buf] at every line terminator
    gives the complete segments [lines], in the order of the text, and
    the unterminated final segment [rest]. *)
Inductive Segments : string -> list string -> string -> Prop :=
| seg_rest (s : string) :
    no_terminator s = true -> Segments s [] s
| seg_line (l : string) (c : ascii) (buf : string) (lines : list string) (rest : string) :
    no_terminator l = true ->
    Js.is_line_terminator c = true ->
    Segments buf lines rest ->
    Segments (l +:+ String c buf) (l :: lines) rest.

Section WithDecoder.
Context `{D : StringDecoder}.

(** The decoded text of a sequence of chunks. *)
Fixpoint decode (d : dstate) (cs : list chunk) : dstate * string :=
  match cs with
  | [] => (d, "")
  | c :: rest =>
      let '(d1, t1) := decoder_write d c in
      let '(d2, t2) := decode d1 rest in
      (d2, t1 +:+ t2)
  end.

(** A hub on which [listen] was called once for each callback. *)
Definition listen_all (cbs : list Events.Callback) (tr : Tracer.t) : Tracer.t :=
  fold_left (fun tr cb => fst (Tracer.listen cb tr)) cbs tr.

End WithDecoder.

Definition nl : string := String "010" EmptyString.
Definition cr : string := String "013" EmptyString.

End LineSpec.

(** ** Further notions used to state what the streams do *)

Module StreamSpec.
Import Events.

(** A text without its line terminators. *)
Fixpoint strip (s : string) : string :=
  match s with
  | EmptyString => EmptyString
  | String c s' => if Js.is_line_terminator c then strip s' else String c (strip s')
  end.

(** A text in which no carriage return occurs. *)
Fixpoint no_cr (s : string) : bool :=
  match s with
  | EmptyString => true
  | String c s' => (negb (Ascii.eqb c "013") && no_cr s')%bool
  end.

(** Texts put one after the other. *)
Definition glue (l : list string) : string := fold_right String.append EmptyString l.

(** A call of a client callback, as opposed to console output, the
    resolution of a promise, or an exception. *)
Definition is_call (e : Effect) : bool :=
  match e with
  | Call _ _ => true
  | _ => false
  end.

Section WithDecoder.
Context `{D : StringDecoder}.

(** [write(chunk)] for every chunk of a sequence. *)
Fixpoint write_each (cs : list chunk) (lp : LogPassthrough.t)
    : LogPassthrough.t * list Effect :=
  match cs with
  | [] => (lp, [])
  | c :: rest =>
      let '(lp1, e1) := LogPassthrough.write c lp in
      let '(lp2, e2) := write_each rest lp1 in
      (lp2, e1 ++ e2)
  end.

(** What [write] leaves in the file sink. *)
Definition tee (c : chunk) (w : option LogPassthrough.WriteStream)
    : option LogPassthrough.WriteStream :=
  match w with
  | Some f => if LogPassthrough.writable f then Some (LogPassthrough.fs_write c f) else Some f
  | None => None
  end.

End WithDecoder.
End StreamSpec.

Module RunnableSpec.
Import PluginRunnable.

Section WithWorld.
Context `{W : World}.


End WithWorld.

(** The IPC channel of the child has closed: [handle.connected] is false. *)
Definition disconnected (r : t) : t :=
  with_child
    ((fun c => {| pid := pid c; connected := false; signals := signals c |}) <$> handle r)
    (ipcProxy r) r.

(** The child answers the handshake with a refusal. *)
Definition handshake_refused : Script :=
  {| on_ensureDir := Js.Return tt; on_ensureSymlink := Js.Return tt;
     on_handshake := Js.Return false; on_load := Js.Return tt;
     on_start := Js.Return None; on_destroy := Js.Return tt |}.

(** Case analysis on every answer of the world that the goal depends on. *)
Ltac world_cases :=
  repeat match goal with
  | |- context [fs_ensureDir ?a ?w] =>
      destruct (fs_ensureDir a w) as [? [[]|?]]; simpl
  | |- context [fs_ensureSymlink ?a ?b ?w] =>
      destruct (fs_ensureSymlink a b w) as [? [[]|?]]; simpl
  | |- context [child_fork ?a ?b ?w] =>
      destruct (child_fork a b w) as [? ?]; simpl
  | |- context [ipc_handshake ?a ?w] =>
      destruct (ipc_handshake a w) as [? [[]|?]]; simpl
  | |- context [ipc_load ?a ?b ?w] =>
      destruct (ipc_load a b w) as [? [[]|?]]; simpl
  | |- context [ipc_start ?a ?b ?w] =>
      destruct (ipc_start a b w) as [? [?|?]]; simpl
  | |- context [ipc_valueOf ?a ?w] =>
      destruct (ipc_valueOf a w) as [? [?|?]]; simpl
  | |- context [ipc_destroy ?a ?w] =>
      destruct (ipc_destroy a w) as [? [[]|?]]; simpl
  end.

End RunnableSpec.

(** * Properties *)

(** ** Strings and [split] *)

#[local] Arguments String.append !s1 s2 / : simpl nomatch.

Section SplitFacts.
Import LineSpec.

Lemma append_empty_r (s : string) : s +:+ "" = s.
Proof. induction s as [|c s IH]; simpl; [reflexivity | now rewrite IH]. Qed.

Lemma append_assoc (a b c : string) : (a +:+ b) +:+ c = a +:+ (b +:+ c).
Proof. induction a as [|x a IH]; simpl; [reflexivity | now rewrite IH]. Qed.

Lemma no_terminator_append (a b : string) :
  no_terminator (a +:+ b) = (no_terminator a && no_terminator b)%bool.
Proof.
  induction a as [|x a IH]; simpl; [reflexivity |].
  rewrite IH. now rewrite andb_assoc.
Qed.

(** The segments and the rest contain no terminator. *)
Lemma Segments_clean buf lines rest :
  Segments buf lines rest ->
  Forall (fun l => no_terminator l = true) lines /\ no_terminator rest = true.
Proof.
  induction 1 as [s Hs | l c buf lines rest Hl Hc _ [IH1 IH2]].
  - split; [constructor | exact Hs].
  - split; [constructor; assumption | exact IH2].
Qed.

Lemma terminators_clean s : no_terminator s = true -> terminators s = 0.
Proof.
  induction s as [|c s IH]; simpl; [reflexivity |].
  destruct (Js.is_line_terminator c); simpl; [discriminate | exact IH].
Qed.

Lemma terminators_append a b : terminators (a +:+ b) = terminators a + terminators b.
Proof. induction a as [|x a IH]; simpl; [reflexivity | rewrite IH; lia]. Qed.

(** As many lines as the buffer has terminators. *)
Lemma Segments_count buf lines rest :
  Segments buf lines rest -> length lines = terminators buf.
Proof.
  induction 1 as [s Hs | l c buf lines rest Hl Hc _ IH].
  - now rewrite terminators_clean.
  - rewrite terminators_append, (terminators_clean l Hl). simpl.
    rewrite Hc, IH. reflexivity.
Qed.

(** The first terminator of a text is where it is. *)
Lemma first_terminator_unique l1 c1 b1 l2 c2 b2 :
  no_terminator l1 = true -> no_terminator l2 = true ->
  Js.is_line_terminator c1 = true -> Js.is_line_terminator c2 = true ->
  l1 +:+ String c1 b1 = l2 +:+ String c2 b2 ->
  l1 = l2 /\ c1 = c2 /\ b1 = b2.
Proof.
  revert l2. induction l1 as [|x l1 IH]; intros [|y l2] H1 H2 T1 T2 E; simpl in *.
  - injection E as -> ->. auto.
  - injection E as <- _. rewrite T1 in H2. discriminate.
  - injection E as -> _. rewrite T2 in H1. discriminate.
  - injection E as -> E.
    apply andb_prop in H1 as [_ H1]. apply andb_prop in H2 as [_ H2].
    destruct (IH l2 H1 H2 T1 T2 E) as (-> & -> & ->). auto.
Qed.

(** A buffer has one segmentation only. *)
Lemma Segments_functional buf lines1 rest1 lines2 rest2 :
  Segments buf lines1 rest1 -> Segments buf lines2 rest2 ->
  lines1 = lines2 /\ rest1 = rest2.
Proof.
  intros S1. revert lines2 rest2.
  induction S1 as [s Hs | l c buf lines rest Hl Hc _ IH]; intros lines2 rest2 S2.
  - inversion S2 as [s' Hs' | l' c' buf' lines' rest' Hl' Hc' S' E]; subst.
    + auto.
    + rewrite no_terminator_append in Hs. simpl in Hs.
      rewrite Hc' in Hs. simpl in Hs.
      apply andb_prop in Hs as [_ Hs]. discriminate.
  - inversion S2 as [s' Hs' | l' c' buf' lines' rest' Hl' Hc' S' E]; subst.
    + rewrite no_terminator_append in Hs'. simpl in Hs'.
      rewrite Hc in Hs'. simpl in Hs'.
      apply andb_prop in Hs' as [_ Hs']. discriminate.
    + destruct (first_terminator_unique _ _ _ _ _ _ Hl' Hl Hc' Hc E) as (-> & -> & ->).
      destruct (IH _ _ S') as [-> ->]. auto.
Qed.

(** Text that arrives later only extends the segmentation. *)
Lemma Segments_append a lines1 rest1 b lines2 rest2 :
  Segments a lines1 rest1 ->
  Segments (rest1 +:+ b) lines2 rest2 ->
  Segments (a +:+ b) (lines1 ++ lines2) rest2.
Proof.
  induction 1 as [s Hs | l c buf lines rest Hl Hc _ IH]; intros S2.
  - exact S2.
  - rewrite append_assoc. simpl. constructor; auto.
Qed.

(** [split] cuts a text into its segments. *)
Lemma split_Segments (s : string) :
  exists lines rest, Js.split s = lines ++ [rest] /\ Segments s lines rest.
Proof.
  induction s as [|c s (lines & rest & E & S)]; simpl.
  - exists [], "". split; [reflexivity | now constructor].
  - destruct (Js.is_line_terminator c) eqn:T.
    + exists ("" :: lines), rest. split; [now rewrite E |].
      now apply (seg_line "" c s lines rest).
    + rewrite E. destruct lines as [|l lines]; simpl.
      * exists [], (String c rest). split; [reflexivity |].
        inversion S as [s' Hs' | ]; subst.
        constructor. simpl. now rewrite T.
      * exists (String c l :: lines), rest. split; [reflexivity |].
        inversion S as [ | l' c' buf' lines' rest' Hl' Hc' S' ]; subst.
        apply (seg_line (String c l) c' buf' lines rest); auto.
        simpl. now rewrite T.
Qed.

Lemma pop_snoc {A} (l : list A) (x : A) : Js.pop (l ++ [x]) = (l, Some x).
Proof. unfold Js.pop. now rewrite removelast_last, last_snoc. Qed.

Lemma pop_split (s : string) :
  exists lines rest, Js.pop (Js.split s) = (lines, Some rest) /\ Segments s lines rest.
Proof.
  destruct (split_Segments s) as (lines & rest & E & S).
  exists lines, rest. split; [| exact S]. rewrite E. apply pop_snoc.
Qed.

End SplitFacts.

(** ** The line splitter *)

Section LogPassthroughFacts.
Context `{D : StringDecoder}.
Import Events LogPassthrough LineSpec.

Lemma with_readableBuffer_id (lp : LogPassthrough.t) :
  with_readableBuffer (readableBuffer lp) lp = lp.
Proof. now destruct lp. Qed.

(** What pushing lines comes to: without a 'data' listener they queue
    up; with one, the queue and the lines are delivered in order, each
    to every listener. *)
Lemma push_each_spec (lines : list string) (lp : LogPassthrough.t) :
  push_each lines lp =
    match dataListeners lp, lines with
    | [], _ => (with_readableBuffer (readableBuffer lp ++ lines) lp, [])
    | _ :: _, [] => (lp, [])
    | _ :: _, _ :: _ =>
        (with_readableBuffer [] lp, flat_map (emit_data lp) (readableBuffer lp ++ lines))
    end.
Proof.
  revert lp. induction lines as [|line lines IH]; intros lp.
  - simpl. destruct (dataListeners lp); [| reflexivity].
    now rewrite app_nil_r, with_readableBuffer_id.
  - simpl. unfold push, flow. simpl.
    destruct (dataListeners lp) as [|l ls] eqn:E.
    + rewrite IH. simpl. rewrite E. unfold with_readableBuffer; simpl.
      now rewrite <- app_assoc.
    + rewrite IH. simpl. rewrite E.
      destruct lines as [|line' lines]; simpl.
      * now rewrite app_nil_r.
      * unfold with_readableBuffer; simpl. f_equal.
        rewrite !flat_map_app. simpl. rewrite <- !app_assoc.
        unfold emit_data at 1 5 6. simpl. reflexivity.
Qed.

Lemma push_each_splitter (lines : list string) (lp : LogPassthrough.t) :
  decoder (fst (push_each lines lp)) = decoder lp /\
  last (fst (push_each lines lp)) = last lp.
Proof.
  rewrite push_each_spec.
  destruct (dataListeners lp), lines; simpl; auto.
Qed.

(** Pushing in two rounds, the splitter fields being set in between, is
    pushing everything at once. *)
Lemma push_each_app (l1 l2 : list string) d1 r1 d2 r2 (lp : LogPassthrough.t) :
  (let '(lp1, e1) := push_each l1 (with_splitter d1 r1 lp) in
   let '(lp2, e2) := push_each l2 (with_splitter d2 r2 lp1) in
   (lp2, e1 ++ e2))
  = push_each (l1 ++ l2) (with_splitter d2 r2 lp).
Proof.
  rewrite (push_each_spec l1), (push_each_spec (l1 ++ l2)). simpl.
  destruct (dataListeners lp) as [|x xs] eqn:E.
  - rewrite push_each_spec. simpl. rewrite E.
    unfold with_readableBuffer, with_splitter; simpl. now rewrite app_assoc.
  - destruct l1 as [|a l1]; simpl.
    + rewrite push_each_spec. simpl. rewrite E.
      destruct l2; reflexivity.
    + rewrite push_each_spec. simpl. rewrite E.
      destruct l2 as [|b l2]; simpl.
      * rewrite !app_nil_r. reflexivity.
      * unfold with_readableBuffer, with_splitter; simpl. f_equal.
        rewrite (app_comm_cons _ _ a), (app_assoc (readableBuffer lp)).
        rewrite (flat_map_app _ (readableBuffer lp ++ a :: l1)). reflexivity.
Qed.

(** One [_transform] call: the buffer (the carried text and the decoded
    chunk) is cut into its segments; the complete ones are pushed in
    order and the rest is carried on. *)
Lemma transform_spec (c : chunk) (lp : LogPassthrough.t) :
  exists lines rest,
    Segments (carry lp +:+ snd (decoder_write (decoder lp) c)) lines rest /\
    _transform c lp =
      push_each lines
        (with_splitter (fst (decoder_write (decoder lp) c)) (Some rest) lp).
Proof.
  unfold _transform.
  destruct (decoder_write (decoder lp) c) as [d text]. cbn [fst snd].
  destruct (pop_split (carry lp +:+ text)) as (lines & rest & E & S).
  exists lines, rest. split; [exact S |]. now rewrite E.
Qed.

(** A sequence of chunks: the same for the whole decoded text, wherever
    the chunks were cut. *)
Lemma feed_spec (cs : list chunk) (c : chunk) (lp : LogPassthrough.t) :
  exists lines rest,
    Segments (carry lp +:+ snd (decode (decoder lp) (c :: cs))) lines rest /\
    feed (c :: cs) lp =
      push_each lines
        (with_splitter (fst (decode (decoder lp) (c :: cs))) (Some rest) lp).
Proof.
  revert c lp. induction cs as [|c' cs IH]; intros c lp.
  - destruct (transform_spec c lp) as (lines & rest & S & E).
    exists lines, rest. simpl.
    destruct (decoder_write (decoder lp) c) as [d text]. simpl in *.
    rewrite append_empty_r. split; [exact S |].
    rewrite E. destruct (push_each lines _). now rewrite app_nil_r.
  - destruct (transform_spec c lp) as (lines1 & rest1 & S1 & E1).
    change (feed (c :: c' :: cs) lp)
      with (let '(lp1, e1) := _transform c lp in
            let '(lp2, e2) := feed (c' :: cs) lp1 in (lp2, e1 ++ e2)).
    change (decode (decoder lp) (c :: c' :: cs))
      with (let '(d1, t1) := decoder_write (decoder lp) c in
            let '(d2, t2) := decode d1 (c' :: cs) in (d2, t1 +:+ t2)).
    destruct (decoder_write (decoder lp) c) as [d1 t1]. simpl in S1, E1.
    rewrite E1.
    pose proof (push_each_splitter lines1 (with_splitter d1 (Some rest1) lp)) as [Hd Hl].
    destruct (push_each lines1 (with_splitter d1 (Some rest1) lp)) as [lp1 e1] eqn:P1.
    simpl in Hd, Hl.
    destruct (IH c' lp1) as (lines2 & rest2 & S2 & E2).
    unfold carry in S2. rewrite Hl, Hd in S2. rewrite Hd in E2.
    destruct (decode d1 (c' :: cs)) as [d2 t2]. simpl in S2, E2. simpl.
    exists (lines1 ++ lines2), rest2. split.
    + rewrite <- append_assoc. now apply (Segments_append _ _ rest1).
    + rewrite E2. rewrite <- push_each_app with (d1 := d1) (r1 := Some rest1).
      now rewrite P1.
Qed.

(** [_flush]: the final text is the carried text and what the decoder
    still held; it is pushed as one line unless it is empty. *)
Lemma flush_spec (lp : LogPassthrough.t) :
  _flush lp =
    let d := fst (decoder_end (decoder lp)) in
    match carry lp +:+ snd (decoder_end (decoder lp)) with
    | EmptyString => (with_splitter d (Some EmptyString) lp, [])
    | String a s => push (String a s) (with_splitter d (Some (String a s)) lp)
    end.
Proof.
  unfold _flush, carry.
  destruct (decoder_end (decoder lp)) as [d rest]. simpl.
  destruct (last lp) as [[|a s]|]; simpl.
  - destruct rest; reflexivity.
  - reflexivity.
  - destruct rest; reflexivity.
Qed.

End LogPassthroughFacts.

(** ** Ending and destroying a stream *)

Section FinishFacts.
Context `{D : StringDecoder}.
Import Events LogPassthrough.

#[local] Arguments unhandled : simpl never.
#[local] Arguments destoryAndResolve : simpl never.

Lemma none_uncaught_app (a b : list Effect) :
  none_uncaught (a ++ b) = (none_uncaught a && none_uncaught b)%bool.
Proof. unfold none_uncaught. apply forallb_app. Qed.

Lemma none_uncaught_data (lp : LogPassthrough.t) (lines : list string) :
  none_uncaught (flat_map (emit_data lp) lines) = true.
Proof.
  induction lines as [|l lines IH]; simpl; [reflexivity |].
  rewrite none_uncaught_app, IH, andb_true_r.
  unfold emit_data. induction (dataListeners lp) as [|[lv cb] ls IHl]; simpl; auto.
Qed.

Lemma none_uncaught_close (lp : LogPassthrough.t) :
  none_uncaught (emit_close lp) = true.
Proof.
  unfold emit_close. induction (closeListeners lp) as [|[p] ls IH]; simpl; auto.
Qed.

Lemma none_uncaught_error (lp : LogPassthrough.t) (e : Js.Error) :
  errorListeners lp <> [] -> none_uncaught (emit_error lp e) = true.
Proof.
  unfold emit_error. destruct (errorListeners lp) as [|l ls] eqn:E; [congruence |].
  intros _. clear E. revert l. induction ls as [|l' ls IH]; intros [cb]; simpl; auto.
  apply (IH l').
Qed.

Lemma push_each_quiet (lines : list string) (lp : LogPassthrough.t) :
  wiring (fst (push_each lines lp)) = wiring lp /\
  ended (fst (push_each lines lp)) = ended lp /\
  destroyed (fst (push_each lines lp)) = destroyed lp /\
  none_uncaught (snd (push_each lines lp)) = true.
Proof.
  rewrite push_each_spec. unfold wiring.
  destruct (dataListeners lp) eqn:E, lines; simpl; rewrite ?E; auto.
  repeat split; auto. apply (none_uncaught_data lp).
Qed.

Lemma push_quiet (line : string) (lp : LogPassthrough.t) :
  wiring (fst (push line lp)) = wiring lp /\
  ended (fst (push line lp)) = ended lp /\
  destroyed (fst (push line lp)) = destroyed lp /\
  none_uncaught (snd (push line lp)) = true.
Proof.
  pose proof (push_each_quiet [line] lp) as H. simpl in H.
  destruct (push line lp) as [lp1 e1]. simpl in *.
  now rewrite app_nil_r in H.
Qed.

Lemma flush_quiet (lp : LogPassthrough.t) :
  wiring (fst (_flush lp)) = wiring lp /\
  ended (fst (_flush lp)) = ended lp /\
  destroyed (fst (_flush lp)) = destroyed lp /\
  none_uncaught (snd (_flush lp)) = true.
Proof.
  rewrite flush_spec. cbv zeta.
  destruct (carry lp +:+ snd (decoder_end (decoder lp))) as [|a s].
  - simpl. auto.
  - apply (push_quiet (String a s)
             (with_splitter (fst (decoder_end (decoder lp))) (Some (String a s)) lp)).
Qed.

Lemma flush_unheard (lp : LogPassthrough.t) :
  dataListeners lp = [] -> snd (_flush lp) = [].
Proof.
  intros L. rewrite flush_spec. cbv zeta.
  destruct (carry lp +:+ snd (decoder_end (decoder lp))) as [|a s]; [reflexivity |].
  unfold push, flow. simpl. now rewrite L.
Qed.



Lemma end_quiet (lp : LogPassthrough.t) :
  wiring (fst (end_ lp)) = wiring lp /\
  destroyed (fst (end_ lp)) = destroyed lp /\
  none_uncaught (snd (end_ lp)) = true.
Proof.
  unfold end_. destruct (ended lp || destroyed lp)%bool; [simpl; auto |].
  destruct (waiting lp); [simpl; auto |].
  pose proof (flush_quiet lp) as (Hw & _ & Hd & Hu).
  destruct (_flush lp) as [lp1 e1]. simpl in *. auto.
Qed.


(** [destroy] marks the stream and leaves the events to the runtime: on a
    stream that was not destroyed yet, 'close' is scheduled, after the
    'error' when there is one. *)
Lemma destroy_spec (err : option Js.Error) (lp : LogPassthrough.t) :
  wiring (destroy err lp) = wiring lp /\
  destroyed (destroy err lp) = true /\
  ended (destroy err lp) = ended lp /\
  (destroyed lp = true -> destroy err lp = lp) /\
  (destroyed lp = false ->
     scheduled (destroy err lp)
     = scheduled lp
         ++ match err with Some e => [EmitError e] | None => [] end ++ [EmitClose]).
Proof.
  unfold destroy. destruct (destroyed lp) eqn:E; simpl.
  - repeat split; auto. discriminate.
  - repeat split; auto. discriminate.
Qed.

(** [destoryAndResolve] always destroys the stream and always resolves;
    the error is passed to the stream only when somebody listens for
    errors, and is written to the console otherwise. *)
Lemma destoryAndResolve_spec (err : option Js.Error) (lp : LogPassthrough.t) :
  wiring (fst (destoryAndResolve err lp)) = wiring lp /\
  destroyed (fst (destoryAndResolve err lp)) = true /\
  In (Resolve Finished) (snd (destoryAndResolve err lp)) /\
  none_uncaught (snd (destoryAndResolve err lp)) = true /\
  (destroyed lp = false -> In EmitClose (scheduled (fst (destoryAndResolve err lp)))) /\
  match err, errorListeners lp with
  | Some e, [] =>
      In (ConsoleError (unhandled e)) (snd (destoryAndResolve err lp))
  | _, _ => True
  end.
Proof.
  assert (C : forall x, destroyed lp = false -> In EmitClose (scheduled (destroy x lp))).
  { intros x H. destruct (destroy_spec x lp) as (_ & _ & _ & _ & Hs).
    rewrite (Hs H). apply in_or_app. right. apply in_or_app. right. now left. }
  unfold destoryAndResolve.
  destruct err as [e|].
  - destruct (errorListeners lp) as [|l ls] eqn:EL; simpl.
    + destruct (destroy_spec None lp) as (Hw & Hd & _).
      repeat split; auto; simpl; tauto.
    + destruct (destroy_spec (Some e) lp) as (Hw & Hd & _).
      repeat split; auto; simpl; tauto.
  - destruct (destroy_spec None lp) as (Hw & Hd & _).
    simpl. repeat split; auto; simpl; tauto.
Qed.

Lemma wiring_listeners (a b : LogPassthrough.t) :
  wiring a = wiring b ->
  dataListeners a = dataListeners b /\ errorListeners a = errorListeners b /\
  closeListeners a = closeListeners b /\ fileStream a = fileStream b.
Proof. unfold wiring. intros H. injection H as -> -> -> ->. auto. Qed.

(** The 'close' listeners that [finish] left on the file sink: each of
    them destroys the stream and resolves its promise. *)
Lemma run_fs_close_spec (hs : list (option Js.Error)) (lp : LogPassthrough.t) :
  errorListeners (fst (run_fs_close hs lp)) = errorListeners lp /\
  none_uncaught (snd (run_fs_close hs lp)) = true /\
  (destroyed lp = true -> destroyed (fst (run_fs_close hs lp)) = true) /\
  (hs <> [] ->
     destroyed (fst (run_fs_close hs lp)) = true /\
     In (Resolve Finished) (snd (run_fs_close hs lp)) /\
     (destroyed lp = false -> In EmitClose (scheduled (fst (run_fs_close hs lp))))).
Proof.
  assert (K : forall hs lp, In EmitClose (scheduled lp) ->
                In EmitClose (scheduled (fst (run_fs_close hs lp)))).
  { clear. induction hs as [|err rest IH]; intros lp H; [exact H |].
    simpl. set (lp0 := with_fileStream (fs_close <$> fileStream lp) lp).
    assert (H0 : In EmitClose (scheduled (fst (destoryAndResolve err lp0)))).
    { unfold destoryAndResolve.
      assert (Q : forall x, In EmitClose (scheduled (destroy x lp0))).
      { intros x. unfold destroy. destruct (destroyed lp0); [exact H |].
        simpl. apply in_or_app. now left. }
      destruct err; [destruct (0 <? length (errorListeners lp0))%nat |]; apply Q. }
    destruct (destoryAndResolve err lp0) as [lp1 e1]. simpl in H0.
    specialize (IH lp1 H0). destruct (run_fs_close rest lp1). exact IH. }
  revert lp. induction hs as [|err rest IH]; intros lp.
  - simpl. repeat split; auto. congruence.
  - simpl.
    set (lp0 := with_fileStream (fs_close <$> fileStream lp) lp).
    pose proof (destoryAndResolve_spec err lp0) as (Hw & Hd & Hr & Hu & Hc & _).
    apply wiring_listeners in Hw as (_ & Hel & _ & _).
    pose proof (K rest (fst (destoryAndResolve err lp0))) as Hk.
    destruct (destoryAndResolve err lp0) as [lp1 e1]. simpl in *.
    pose proof (IH lp1) as (IHe & IHu & IHd & _).
    destruct (run_fs_close rest lp1) as [lp2 e2]. simpl in *.
    repeat split; auto.
    + congruence.
    + now rewrite none_uncaught_app, Hu, IHu.
    + apply in_or_app. now left.
Qed.


(** What [finish] leaves of the file sink: the sink it found, ended, with
    one more 'close' listener. *)
Lemma finish_sink (err : option Js.Error) (lp : LogPassthrough.t) :
  fileStream (fst (finish err lp))
  = (fun w => fs_end (fs_on_close err w)) <$> fileStream lp.
Proof.
  unfold finish. pose proof (end_quiet lp) as (Hw & _).
  apply wiring_listeners in Hw as (_ & _ & _ & Hfs).
  destruct (end_ lp) as [lpe e1]. simpl in Hfs. rewrite Hfs.
  destruct (fileStream lp) as [w|] eqn:F; [reflexivity |].
  pose proof (destoryAndResolve_spec err lpe) as (Hw2 & _).
  apply wiring_listeners in Hw2 as (_ & _ & _ & Hfs2).
  destruct (destoryAndResolve err lpe) as [lp2 e2]. simpl in *. congruence.
Qed.



(** A file sink that has closed: the listener that [finish] registers is
    never run, so the call leaves its promise unresolved, and no later
    'close' changes that. *)
Lemma finish_on_closed_sink (err : option Js.Error) (lp : LogPassthrough.t)
    (w : LogPassthrough.WriteStream) :
  fileStream lp = Some w -> fs_closed w = true ->
  snd (finish err lp) = snd (end_ lp) /\
  fileStream_close (fst (finish err lp)) = (fst (finish err lp), []).
Proof.
  intros F C. pose proof (finish_sink err lp) as H. rewrite F in H. simpl in H.
  split.
  - unfold finish. pose proof (end_quiet lp) as (Hw & _).
    apply wiring_listeners in Hw as (_ & _ & _ & Hfs).
    destruct (end_ lp) as [lpe e1]. simpl in *. now rewrite Hfs, F.
  - unfold fileStream_close. rewrite H. simpl. now rewrite C.
Qed.





End FinishFacts.

(** ** The trace hub *)

Section TracerFacts.
Context `{D : StringDecoder}.
Import Events LineSpec.
Import LogPassthrough (dataListeners, errorListeners, closeListeners,
  readableBuffer, destroyed, fileStream, emit_data, emit_error, emit_close).

#[local] Arguments LogPassthrough.unhandled : simpl never.

(** While somebody listens and nothing is queued, the splitter keeps
    the queue empty; it never touches the listeners, the sink or the
    flags. *)
Lemma push_each_flowing (lines : list string) (lp : LogPassthrough.t) :
  dataListeners lp <> [] -> readableBuffer lp = [] ->
  readableBuffer (fst (LogPassthrough.push_each lines lp)) = [].
Proof.
  intros L B. rewrite push_each_spec.
  destruct (dataListeners lp); [congruence |]. now destruct lines.
Qed.

Lemma transform_flowing (c : chunk) (lp : LogPassthrough.t) :
  LogPassthrough.wiring (fst (LogPassthrough._transform c lp)) = LogPassthrough.wiring lp /\
  LogPassthrough.ended (fst (LogPassthrough._transform c lp)) = LogPassthrough.ended lp /\
  destroyed (fst (LogPassthrough._transform c lp)) = destroyed lp /\
  (dataListeners lp <> [] -> readableBuffer lp = [] ->
   readableBuffer (fst (LogPassthrough._transform c lp)) = []).
Proof.
  destruct (transform_spec c lp) as (lines & rest & _ & E). rewrite E.
  set (lp1 := LogPassthrough.with_splitter _ _ lp).
  destruct (push_each_quiet lines lp1) as (Hw & He & Hd & _).
  repeat split; auto. apply (push_each_flowing lines lp1).
Qed.

Lemma feed_flowing (cs : list chunk) (lp : LogPassthrough.t) :
  LogPassthrough.wiring (fst (LogPassthrough.feed cs lp)) = LogPassthrough.wiring lp /\
  LogPassthrough.ended (fst (LogPassthrough.feed cs lp)) = LogPassthrough.ended lp /\
  destroyed (fst (LogPassthrough.feed cs lp)) = destroyed lp /\
  (dataListeners lp <> [] -> readableBuffer lp = [] ->
   readableBuffer (fst (LogPassthrough.feed cs lp)) = []).
Proof.
  revert lp. induction cs as [|c cs IH]; intros lp; [simpl; auto |].
  simpl. destruct (transform_flowing c lp) as (Hw & He & Hd & Hb).
  destruct (LogPassthrough._transform c lp) as [lp1 e1]. simpl in *.
  destruct (IH lp1) as (Hw1 & He1 & Hd1 & Hb1).
  destruct (LogPassthrough.feed cs lp1) as [lp2 e2]. simpl in *.
  apply wiring_listeners in Hw as Hx. destruct Hx as (Hdl & _).
  repeat split; try congruence.
  intros L B. apply Hb1; [congruence | now apply Hb].
Qed.

Lemma flush_flowing (lp : LogPassthrough.t) :
  dataListeners lp <> [] -> readableBuffer lp = [] ->
  readableBuffer (fst (LogPassthrough._flush lp)) = [].
Proof.
  intros L B. rewrite flush_spec. cbv zeta.
  destruct (LogPassthrough.carry lp +:+ snd (decoder_end (LogPassthrough.decoder lp)))
    as [|a s]; [exact B |].
  set (lp1 := LogPassthrough.with_splitter _ _ lp).
  pose proof (push_each_flowing [String a s] lp1 L B) as H. simpl in H.
  now destruct (LogPassthrough.push (String a s) lp1).
Qed.

(** The chunks that waited are split when somebody starts to read;
    nothing else about the stream changes. *)
Lemma drain_spec (lp : LogPassthrough.t) :
  LogPassthrough.wiring (fst (LogPassthrough.drain lp)) = LogPassthrough.wiring lp /\
  destroyed (fst (LogPassthrough.drain lp)) = destroyed lp /\
  (dataListeners lp <> [] -> readableBuffer lp = [] ->
   readableBuffer (fst (LogPassthrough.drain lp)) = []).
Proof.
  unfold LogPassthrough.drain. destruct (destroyed lp) eqn:Hd0; [simpl; auto |].
  destruct (LogPassthrough.writableBuffer lp) as [|c cs]; [simpl; auto |].
  set (lp0 := LogPassthrough.with_writableBuffer [] lp).
  destruct (feed_flowing (c :: cs) lp0) as (Hw & He & Hd & Hb).
  destruct (LogPassthrough.feed (c :: cs) lp0) as [lp1 e1].
  cbn [fst snd] in Hw, He, Hd, Hb.
  change (LogPassthrough.wiring lp0) with (LogPassthrough.wiring lp) in Hw.
  change (destroyed lp0) with (destroyed lp) in Hd.
  change (dataListeners lp0) with (dataListeners lp) in Hb.
  change (readableBuffer lp0) with (readableBuffer lp) in Hb.
  apply wiring_listeners in Hw as Hx. destruct Hx as (Hdl & _).
  destruct (LogPassthrough.ended lp1).
  - destruct (flush_quiet lp1) as (Hw2 & _ & Hd2 & _).
    pose proof (flush_flowing lp1) as Hb2.
    destruct (LogPassthrough._flush lp1) as [lp2 e2]. cbn [fst snd] in *.
    split; [now rewrite Hw2 |]. split; [now rewrite Hd2, Hd |].
    intros L B. apply Hb2; [congruence | now apply Hb].
  - cbn [fst snd]. split; [exact Hw |]. split; [now rewrite Hd |]. exact Hb.
Qed.

(** What a new 'data' listener changes: it is the last of the 'data'
    listeners, and nothing is left in the queue. *)
Lemma on_data_spec (l : DataListener) (lp : LogPassthrough.t) :
  dataListeners (fst (LogPassthrough.on_data l lp)) = dataListeners lp ++ [l] /\
  errorListeners (fst (LogPassthrough.on_data l lp)) = errorListeners lp /\
  closeListeners (fst (LogPassthrough.on_data l lp)) = closeListeners lp /\
  fileStream (fst (LogPassthrough.on_data l lp)) = fileStream lp /\
  readableBuffer (fst (LogPassthrough.on_data l lp)) = [] /\
  destroyed (fst (LogPassthrough.on_data l lp)) = destroyed lp.
Proof.
  unfold LogPassthrough.on_data, LogPassthrough.flow.
  set (lp0 := LogPassthrough.with_listeners _ _ _ lp).
  assert (L : dataListeners lp0 = dataListeners lp ++ [l]) by reflexivity.
  destruct (dataListeners lp0) as [|x xs] eqn:E; [now destruct (dataListeners lp) |].
  set (lp1 := LogPassthrough.with_readableBuffer [] lp0).
  destruct (drain_spec lp1) as (Hw & Hd & Hb).
  apply wiring_listeners in Hw as (H1 & H2 & H3 & H4).
  destruct (LogPassthrough.drain lp1) as [lp2 e2]. simpl in *.
  rewrite H1, H2, H3, H4, Hd.
  repeat split; auto. apply Hb; [now rewrite E | reflexivity].
Qed.

(** What one [listen] call registers. *)
Lemma listen_spec (cb : Callback) (tr : Tracer.t) :
  let tr' := fst (Tracer.listen cb tr) in
  dataListeners (Tracer.stdout tr') = dataListeners (Tracer.stdout tr) ++ [OnLogData info cb] /\
  dataListeners (Tracer.stderr tr') = dataListeners (Tracer.stderr tr) ++ [OnLogData warn cb] /\
  errorListeners (Tracer.stdout tr') = errorListeners (Tracer.stdout tr) ++ [OnLogError cb] /\
  errorListeners (Tracer.stderr tr') = errorListeners (Tracer.stderr tr) ++ [OnLogError cb] /\
  closeListeners (Tracer.stdout tr') =
    closeListeners (Tracer.stdout tr) ++ [OnCloseResolve (EndOf (Tracer.listens tr) 0)] /\
  closeListeners (Tracer.stderr tr') =
    closeListeners (Tracer.stderr tr) ++ [OnCloseResolve (EndOf (Tracer.listens tr) 1)] /\
  readableBuffer (Tracer.stdout tr') = [] /\
  readableBuffer (Tracer.stderr tr') = [] /\
  destroyed (Tracer.stdout tr') = destroyed (Tracer.stdout tr) /\
  destroyed (Tracer.stderr tr') = destroyed (Tracer.stderr tr) /\
  Tracer.waiterForEnd tr' = Some (Tracer.listens tr) /\
  Tracer.listens tr' = S (Tracer.listens tr) /\
  Tracer.dispatcher tr' = Tracer.dispatcher tr ++ [cb].
Proof.
  unfold Tracer.listen, Tracer.pipeLog.
  destruct (on_data_spec (OnLogData info cb) (Tracer.stdout tr))
    as (O1 & O2 & O3 & _ & O5 & O6).
  destruct (on_data_spec (OnLogData warn cb) (Tracer.stderr tr))
    as (R1 & R2 & R3 & _ & R5 & R6).
  destruct (LogPassthrough.on_data (OnLogData info cb) (Tracer.stdout tr)) as [o1 e1].
  destruct (LogPassthrough.on_data (OnLogData warn cb) (Tracer.stderr tr)) as [r1 e2].
  simpl in *. rewrite O1, O2, O3, O5, O6, R1, R2, R3, R5, R6.
  repeat split; reflexivity.
Qed.

Lemma listen_all_snoc (cbs : list Callback) (cb : Callback) (tr : Tracer.t) :
  listen_all (cbs ++ [cb]) tr = fst (Tracer.listen cb (listen_all cbs tr)).
Proof. unfold listen_all. now rewrite fold_left_app. Qed.

(** A hub that was listened to by [cbs]: who listens for what. *)
Lemma listen_all_spec (cbs : list Callback) (tr : Tracer.t) :
  let tr' := listen_all cbs tr in
  dataListeners (Tracer.stdout tr') =
    dataListeners (Tracer.stdout tr) ++ map (OnLogData info) cbs /\
  dataListeners (Tracer.stderr tr') =
    dataListeners (Tracer.stderr tr) ++ map (OnLogData warn) cbs /\
  errorListeners (Tracer.stdout tr') =
    errorListeners (Tracer.stdout tr) ++ map OnLogError cbs /\
  errorListeners (Tracer.stderr tr') =
    errorListeners (Tracer.stderr tr) ++ map OnLogError cbs /\
  destroyed (Tracer.stdout tr') = destroyed (Tracer.stdout tr) /\
  destroyed (Tracer.stderr tr') = destroyed (Tracer.stderr tr) /\
  Tracer.listens tr' = Tracer.listens tr + length cbs.
Proof.
  induction cbs as [|cb cbs IH] using rev_ind; cbv zeta.
  - simpl. rewrite !app_nil_r, Nat.add_0_r. repeat split; reflexivity.
  - rewrite listen_all_snoc.
    pose proof (listen_spec cb (listen_all cbs tr))
      as (H1 & H2 & H3 & H4 & _ & _ & _ & _ & H9 & H10 & _ & H12 & _).
    cbv zeta in IH, H1, H2, H3, H4, H9, H10, H12.
    destruct IH as (I1 & I2 & I3 & I4 & I5 & I6 & I7).
    rewrite H1, H2, H3, H4, H9, H10, H12, I1, I2, I3, I4, I5, I6, I7.
    rewrite !map_app, !app_assoc, length_app. simpl.
    repeat split; try reflexivity. lia.
Qed.

(** [destroy] and the 'close' events of the sinks, stream by stream. *)
Lemma destroy_and_close_streams (err : option Js.Error) (tr : Tracer.t) :
  Tracer.destroy_and_close err tr =
    (Tracer.with_streams
       (fst (LogPassthrough.finish_and_close None (Tracer.stdout tr)))
       (fst (LogPassthrough.finish_and_close err (Tracer.stderr tr))) tr,
     (snd (LogPassthrough.finish_and_close err (Tracer.stderr tr)),
      snd (LogPassthrough.finish_and_close None (Tracer.stdout tr)))).
Proof.
  unfold Tracer.destroy_and_close, Tracer.destroy, Tracer.files_closed,
    LogPassthrough.finish_and_close.
  destruct (LogPassthrough.finish err (Tracer.stderr tr)) as [r e1].
  destruct (LogPassthrough.finish None (Tracer.stdout tr)) as [o e2].
  simpl.
  destruct (LogPassthrough.fileStream_close r) as [r' e1'].
  destruct (LogPassthrough.fileStream_close o) as [o' e2'].
  reflexivity.
Qed.



End TracerFacts.

(** ** The line splitter: results *)

Section LineSplitterResults.
Import Events LogPassthrough LineSpec.

(** C4. Feeding chunks to a line splitter: the decoded text of each
    chunk is appended to the carried text, the buffer is cut at every
    line feed and carriage return, the complete segments are pushed as
    lines in the order of the text, and the last segment (which may be
    empty) is the new carried text. The same holds for a whole sequence
    of chunks and the concatenation of their decoded texts, so the
    places where the chunks were cut do not matter. Pushed lines are
    queued while nobody listens, and are otherwise delivered in order.
    In particular the chunks "foo\nbar" and "baz\n" give the lines "foo"
    and "barbaz", in this order. *)
Theorem transform_emits_complete_segments (D : StringDecoder) :
  (forall (c : chunk) (lp : LogPassthrough.t),
     exists lines rest,
       Segments (carry lp +:+ snd (decoder_write (decoder lp) c)) lines rest /\
       _transform c lp =
         push_each lines
           (with_splitter (fst (decoder_write (decoder lp) c)) (Some rest) lp)) /\
  (forall (c : chunk) (cs : list chunk) (lp : LogPassthrough.t),
     exists lines rest,
       Segments (carry lp +:+ snd (decode (decoder lp) (c :: cs))) lines rest /\
       feed (c :: cs) lp =
         push_each lines
           (with_splitter (fst (decode (decoder lp) (c :: cs))) (Some rest) lp)) /\
  (forall (lines : list string) (lp : LogPassthrough.t),
     push_each lines lp =
       match dataListeners lp, lines with
       | [], _ => (with_readableBuffer (readableBuffer lp ++ lines) lp, [])
       | _ :: _, [] => (lp, [])
       | _ :: _, _ :: _ =>
           (with_readableBuffer [] lp,
            flat_map (emit_data lp) (readableBuffer lp ++ lines))
       end) /\
  feed (D := text_decoder) ["foo" +:+ nl +:+ "bar"; "baz" +:+ nl] (LogPassthrough.new None)
    = (with_readableBuffer ["foo"; "barbaz"]
         (with_splitter (D := text_decoder) tt (Some "") (LogPassthrough.new None)), []) /\
  (forall cb : Callback,
     snd (feed (D := text_decoder) ["foo" +:+ nl +:+ "bar"; "baz" +:+ nl]
            (Tracer.stdout (fst (Tracer.listen cb (Tracer.new "job" None)))))
     = [Call cb (new_LogEvent info "foo"); Call cb (new_LogEvent info "barbaz")]).
Proof.
  split; [exact transform_spec |].
  split; [intros c cs lp; exact (feed_spec cs c lp) |].
  split; [exact push_each_spec |].
  split; [reflexivity | intros cb; reflexivity].
Qed.

(** C5. Finalizing a line splitter: the final text is the carried text
    followed by whatever the decoder still held of an unfinished
    multi-byte character. If it is not empty it is pushed as one line,
    exactly one; if it is empty nothing is pushed. A pushed line is
    queued while nobody listens and is otherwise delivered once to every
    listener. Examples: a stream that stops in the middle of a two-byte
    character ends with one line, the replacement character; a stream
    that got nothing ends with no line. *)
Theorem flush_emits_final_line (D : StringDecoder) :
  (forall lp : LogPassthrough.t,
     _flush lp =
       let d := fst (decoder_end (decoder lp)) in
       match carry lp +:+ snd (decoder_end (decoder lp)) with
       | EmptyString => (with_splitter d (Some EmptyString) lp, [])
       | String a s => push (String a s) (with_splitter d (Some (String a s)) lp)
       end) /\
  (forall (line : string) (lp : LogPassthrough.t),
     push line lp =
       match dataListeners lp with
       | [] => (with_readableBuffer (readableBuffer lp ++ [line]) lp, [])
       | _ :: _ => (with_readableBuffer [] lp,
                    flat_map (emit_data lp) (readableBuffer lp ++ [line]))
       end) /\
  (let lp := fst (feed (D := utf8_decoder) ["ab" +:+ nl +:+ "c" +:+ String "195" ""]
                    (LogPassthrough.new None)) in
   readableBuffer lp = ["ab"] /\ last lp = Some "c" /\ decoder lp = String "195" "" /\
   readableBuffer (fst (_flush lp)) = ["ab"; "c" +:+ Utf8.replacement] /\
   snd (_flush lp) = []) /\
  _flush (D := text_decoder) (LogPassthrough.new None)
    = (with_splitter (D := text_decoder) tt (Some "") (LogPassthrough.new None), []).
Proof.
  split; [exact flush_spec |].
  split.
  { intros line lp. unfold push, flow. simpl.
    destruct (dataListeners lp); reflexivity. }
  split; [| reflexivity].
  cbv zeta. repeat split; reflexivity.
Qed.

End LineSplitterResults.

(** ** The trace hub and the registry: results *)

Section TracerResults.
Import Events LineSpec.
Import LogPassthrough (dataListeners, errorListeners, closeListeners,
  readableBuffer, destroyed, fileStream, emit_data, emit_error, emit_close,
  unhandled).

#[local] Arguments LogPassthrough.unhandled : simpl never.





(** C9. A listener of a trace hub gets every line of the stdout stream
    as a log event of level [info], every line of the stderr stream as a
    log event of level [warn], and an error of either stream as a log
    event of level [error] that carries the message of the error. After
    [listen cb] every pushed line is delivered, and [cb] is among the
    receivers; for a hub made by the constructor and listened to by
    [cbs] the deliveries are exactly these, one per callback, in the
    order of registration. The events are written out: the level and
    the text each of them carries. *)
Theorem listener_receives_leveled_events (D : StringDecoder) :
  (forall (cb : Callback) (tr : Tracer.t),
     let tr' := fst (Tracer.listen cb tr) in
     (forall lines,
        snd (LogPassthrough.push_each lines (Tracer.stdout tr'))
        = flat_map (emit_data (Tracer.stdout tr')) lines) /\
     (forall lines,
        snd (LogPassthrough.push_each lines (Tracer.stderr tr'))
        = flat_map (emit_data (Tracer.stderr tr')) lines) /\
     (forall line,
        In (Call cb (LogEvent {| level := info; data := line |})) (emit_data (Tracer.stdout tr') line)) /\
     (forall line,
        In (Call cb (LogEvent {| level := warn; data := line |})) (emit_data (Tracer.stderr tr') line)) /\
     (forall err,
        In (Call cb (LogEvent {| level := error; data := Js.message err |}))
           (emit_error (Tracer.stdout tr') err)) /\
     (forall err,
        In (Call cb (LogEvent {| level := error; data := Js.message err |}))
           (emit_error (Tracer.stderr tr') err))) /\
  (forall fresh opts (cbs : list Callback) (line : string) (err : Js.Error),
     let hub := listen_all cbs (Tracer.new fresh opts) in
     emit_data (Tracer.stdout hub) line
       = map (fun cb => Call cb (LogEvent {| level := info; data := line |})) cbs /\
     emit_data (Tracer.stderr hub) line
       = map (fun cb => Call cb (LogEvent {| level := warn; data := line |})) cbs /\
     emit_error (Tracer.stdout hub) err
       = match cbs with
         | [] => [Uncaught err]
         | _ :: _ => map (fun cb => Call cb (LogEvent {| level := error; data := Js.message err |})) cbs
         end /\
     emit_error (Tracer.stderr hub) err
       = match cbs with
         | [] => [Uncaught err]
         | _ :: _ => map (fun cb => Call cb (LogEvent {| level := error; data := Js.message err |})) cbs
         end).
Proof.
  split.
  - intros cb tr. cbv zeta.
    pose proof (listen_spec cb tr) as (D1 & D2 & E1 & E2 & _ & _ & B1 & B2 & _).
    cbv zeta in D1, D2, E1, E2, B1, B2.
    repeat split.
    + intros lines. rewrite push_each_spec, D1, B1.
      destruct (dataListeners (Tracer.stdout tr)), lines; reflexivity.
    + intros lines. rewrite push_each_spec, D2, B2.
      destruct (dataListeners (Tracer.stderr tr)), lines; reflexivity.
    + intros line. unfold emit_data. rewrite D1, map_app.
      apply in_or_app. right. now left.
    + intros line. unfold emit_data. rewrite D2, map_app.
      apply in_or_app. right. now left.
    + intros err. unfold emit_error. rewrite E1.
      destruct (errorListeners (Tracer.stdout tr)) as [|x xs]; [now left |].
      change ((x :: xs) ++ [OnLogError cb]) with (x :: (xs ++ [OnLogError cb])).
      cbv iota. rewrite app_comm_cons, map_app. apply in_or_app. right. now left.
    + intros err. unfold emit_error. rewrite E2.
      destruct (errorListeners (Tracer.stderr tr)) as [|x xs]; [now left |].
      change ((x :: xs) ++ [OnLogError cb]) with (x :: (xs ++ [OnLogError cb])).
      cbv iota. rewrite app_comm_cons, map_app. apply in_or_app. right. now left.
  - intros fresh opts cbs line err. cbv zeta.
    pose proof (listen_all_spec cbs (Tracer.new fresh opts))
      as (D1 & D2 & E1 & E2 & _).
    cbv zeta in D1, D2, E1, E2. simpl in D1, D2, E1, E2.
    unfold emit_data, emit_error. rewrite D1, D2, E1, E2.
    repeat split; try apply map_map;
      (destruct cbs as [|c cbs]; simpl; [reflexivity | now rewrite map_map]).
Qed.

(** C10. The error given to [Tracer.destroy] goes to the finalization of
    the stderr stream only: the stdout stream is finished without an
    error, so what happens to it, and everything its listeners are told,
    also on the tick that follows, is the same whatever the error is, or
    without one. With one listener and the error "boom": the call
    resolves both promises, and on the next tick the listener gets the
    error once, from the stderr stream, before that stream closes; the
    stdout stream only closes. *)
Theorem destroy_error_only_through_stderr (D : StringDecoder) :
  (forall (err : option Js.Error) (tr : Tracer.t),
     Tracer.destroy err tr =
       (Tracer.with_streams
          (fst (LogPassthrough.finish None (Tracer.stdout tr)))
          (fst (LogPassthrough.finish err (Tracer.stderr tr))) tr,
        (snd (LogPassthrough.finish err (Tracer.stderr tr)),
         snd (LogPassthrough.finish None (Tracer.stdout tr))))) /\
  (forall (err1 err2 : option Js.Error) (tr : Tracer.t),
     Tracer.stdout (fst (Tracer.destroy_and_close err1 tr))
       = Tracer.stdout (fst (Tracer.destroy_and_close err2 tr)) /\
     snd (snd (Tracer.destroy_and_close err1 tr))
       = snd (snd (Tracer.destroy_and_close err2 tr))) /\
  (forall (err1 err2 : option Js.Error) (tr : Tracer.t),
     snd (snd (Tracer.tick (fst (Tracer.destroy_and_close err1 tr))))
       = snd (snd (Tracer.tick (fst (Tracer.destroy_and_close err2 tr))))) /\
  (forall cb : Callback,
     let hub := fst (Tracer.listen (D := text_decoder) cb (Tracer.new "job" None)) in
     let d := Tracer.destroy (Some (Js.mkError "Error" "boom")) hub in
     snd d = ([Resolve Finished], [Resolve Finished]) /\
     snd (Tracer.tick (fst d))
     = ([Call cb (LogEvent {| level := error; data := "boom" |});
         Resolve (EndOf 0 1)],
        [Resolve (EndOf 0 0)]) /\
     snd (Tracer.tick (fst (Tracer.tick (fst d)))) = ([], [])).
Proof.
  split; [| split; [| split]].
  - intros err tr. unfold Tracer.destroy.
    destruct (LogPassthrough.finish err (Tracer.stderr tr)).
    destruct (LogPassthrough.finish None (Tracer.stdout tr)). reflexivity.
  - intros err1 err2 tr. rewrite !destroy_and_close_streams. split; reflexivity.
  - intros err1 err2 tr. rewrite !destroy_and_close_streams. reflexivity.
  - intros cb. cbv zeta. repeat split; reflexivity.
Qed.

(** C8. [TraceManager.destroy]: for an id that is not registered the
    call returns without raising, writes a debug line, and leaves the
    map as it was; for a registered id the hub is taken out of the map
    and its [destroy] is called with the error. Either way the id is not
    registered afterwards, so destroying it again is the first case. *)
Theorem registry_destroy (D : StringDecoder)
    (id : string) (err : option Js.Error) (m : gmap string Tracer.t) :
  match m !! id with
  | None =>
      TraceManager.destroy id err m =
        Js.Return {| TraceManager.tracerMap := m;
                     TraceManager.logged :=
                       [Debug ("tracer " +:+ id +:+ " not found for destroy")];
                     TraceManager.destroyed := None |}
  | Some tracer =>
      TraceManager.destroy id err m =
        Js.Return {| TraceManager.tracerMap := delete id m;
                     TraceManager.logged := [];
                     TraceManager.destroyed := Some (Tracer.destroy err tracer) |}
  end /\
  exists d,
    TraceManager.destroy id err m = Js.Return d /\
    TraceManager.get id (TraceManager.tracerMap d) = None /\
    forall err',
      TraceManager.destroy id err' (TraceManager.tracerMap d) =
        Js.Return {| TraceManager.tracerMap := TraceManager.tracerMap d;
                     TraceManager.logged :=
                       [Debug ("tracer " +:+ id +:+ " not found for destroy")];
                     TraceManager.destroyed := None |}.
Proof.
  unfold TraceManager.destroy, TraceManager.get.
  destruct (m !! id) as [tracer|] eqn:E.
  - split; [reflexivity |]. eexists. split; [reflexivity |]. simpl.
    split; [apply lookup_delete_eq |].
    intros err'. now rewrite lookup_delete_eq.
  - split; [reflexivity |]. eexists. split; [reflexivity |]. simpl.
    split; [exact E |]. intros err'. now rewrite E.
Qed.

End TracerResults.

(** ** The runnable *)

Section RunnableFacts.
Import Js PluginRunnable.
Context `{W : World}.

#[local] Arguments truthy : simpl never.
#[local] Arguments String.append : simpl never.


(** A runnable whose child exists and is not connected: [destroy]
    returns at once and nothing changes. *)
Lemma destroy_disconnected_noop (m : Machine) (c : ChildProcess) :
  handle (this m) = Some c -> connected c = false ->
  destroy m = (m, Return tt).
Proof.
  intros H C. unfold destroy, bind, read. rewrite H, C. reflexivity.
Qed.

(** Whatever makes [start] throw once it has left [idle], the state is
    [busy] afterwards. *)
Lemma start_throw_stays_busy (pkg : PluginPackage) (args : list Arg)
    (m m' : Machine) (e : Error) :
  state (this m) = idle ->
  start pkg args m = (m', Throw e) ->
  state (this m') = busy.
Proof.
  intros I. unfold start, bind, read, update, ensureDir, ensureSymlink, debug,
    on_proxy, request, throw, ret, bind, read. simpl. rewrite I. simpl.
  repeat match goal with
  | |- context [fs_ensureDir ?a ?w] =>
      destruct (fs_ensureDir a w) as [? [[]|?]]; simpl
  | |- context [fs_ensureSymlink ?a ?b ?w] =>
      destruct (fs_ensureSymlink a b w) as [? [[]|?]]; simpl
  | |- context [ipc_load ?a ?b ?w] =>
      destruct (ipc_load a b w) as [? [[]|?]]; simpl
  | |- context [ipc_start ?a ?b ?w] =>
      destruct (ipc_start a b w) as [? [?|?]]; simpl
  | |- context [truthy ?x] => destruct (truthy x); simpl
  | |- context [ipcProxy ?x] => destruct (ipcProxy x); simpl
  | |- (_, Throw _) = (_, Throw _) -> _ => intros [= <- _]; reflexivity
  | |- (_, Return _) = (_, Throw _) -> _ => discriminate
  end.
Qed.

(** C2. [start] on a runnable that is not [idle] ([init], [busy] or
    [error]) throws at once: the machine is left exactly as it was, so
    no request went to the IPC proxy or to the file system and the
    state did not change. *)
Theorem start_when_not_idle_fails (pkg : PluginPackage) (args : list Arg)
    (m : Machine) :
  State_eqb (state (this m)) idle = false ->
  start pkg args m =
    (m, Throw (TypeError ("the runnable " +:+ dquote +:+ id (this m) +:+ dquote
                            +:+ " is busy or not ready now"))).
Proof.
  intros H. unfold start, bind, read. simpl. rewrite H. reflexivity.
Qed.

(** C3. [destroy] on a runnable whose child is connected, when the
    [destroy] request to the child fails (an error, or no answer within
    the 1000 ms it is given): the runnable is marked canceled, its state
    becomes [error], the child is sent SIGKILL, and the call returns
    without throwing. Nothing else is requested. *)
Theorem destroy_failure_forces_kill (m : Machine) (c : ChildProcess) (p : Entry)
    (w' : world) (e : Error) :
  handle (this m) = Some c ->
  connected c = true ->
  ipcProxy (this m) = Some p ->
  ipc_destroy waitForDestroyed (the_world m) = (w', Throw e) ->
  destroy m =
    ({| the_world := w';
        this :=
          with_child
            (Some {| pid := pid c; connected := connected c;
                     signals := signals c ++ [SIGKILL] |})
            (Some p)
            (with_state error (with_canceled (Some true) (this m)));
        trace := trace m ++ [Destroy 1000; Kill (pid c) SIGKILL] |},
     Return tt).
Proof.
  intros H C P F.
  unfold destroy, bind, read, try_catch, on_proxy, kill, update, request, bind, read.
  rewrite H, C. simpl. rewrite P. simpl. rewrite F. simpl.
  rewrite P, <- app_assoc. reflexivity.
Qed.

End RunnableFacts.

Section RunnableRuns.
Import Js PluginRunnable.

Lemma start_when_not_idle_fails_witness :
  State_eqb (state (this (fresh_machine all_well))) idle = false /\
  start (W := scripted all_well) sample_pkg [] (fresh_machine all_well) =
    (fresh_machine all_well,
     Throw (TypeError ("the runnable " +:+ dquote +:+ "job1" +:+ dquote
                         +:+ " is busy or not ready now"))).
Proof.
  split; [reflexivity |].
  apply (start_when_not_idle_fails (W := scripted all_well) sample_pkg []
           (fresh_machine all_well)).
  reflexivity.
Defined.

Lemma destroy_failure_forces_kill_witness :
  let m := ready_machine destroy_times_out in
  state (this m) = idle /\
  let m' := fst (destroy (W := scripted destroy_times_out) m) in
  snd (destroy (W := scripted destroy_times_out) m) = Return tt /\
  state (this m') = error /\
  canceled (this m') = Some true /\
  handle (this m') = Some {| pid := 1; connected := true; signals := [SIGKILL] |} /\
  trace m' = trace m ++ [Destroy 1000; Kill 1 SIGKILL].
Proof.
  cbv zeta. split; [reflexivity |].
  rewrite (destroy_failure_forces_kill (W := scripted destroy_times_out)
             (ready_machine destroy_times_out)
             {| pid := 1; connected := true; signals := [] |}
             {| proxied := 1 |} tt (mkError "Error" "destroy timeout")
             eq_refl eq_refl eq_refl eq_refl).
  repeat split; reflexivity.
Defined.

(** C1. A [start] whose [load] or [start] request fails does not bring
    the runnable back to [idle]: the exception reaches the caller while
    the state is still [busy], and the next [start] is refused. Shown on
    a runnable that was bootstrapped, once with a plugin that does not
    load in time and once with a plugin that throws. *)
Theorem start_failure_leaves_busy :
  (let m := ready_machine load_times_out in
   let r := start (W := scripted load_times_out) sample_pkg [] m in
   state (this m) = idle /\
   snd r = Throw (mkError "Error" "plugin load not responding") /\
   state (this (fst r)) = busy /\
   snd (start (W := scripted load_times_out) sample_pkg [] (fst r))
     = Throw (TypeError ("the runnable " +:+ dquote +:+ "job1" +:+ dquote
                           +:+ " is busy or not ready now"))) /\
  (let m := ready_machine plugin_throws in
   let r := start (W := scripted plugin_throws) sample_pkg [] m in
   state (this m) = idle /\
   snd r = Throw (mkError "Error" "plugin failed") /\
   state (this (fst r)) = busy /\
   snd (start (W := scripted plugin_throws) sample_pkg [] (fst r))
     = Throw (TypeError ("the runnable " +:+ dquote +:+ "job1" +:+ dquote
                           +:+ " is busy or not ready now"))).
Proof. cbv zeta. repeat split; reflexivity. Qed.

(** C6. [destroy] on a runnable that was never bootstrapped: the handle
    is still [null], reading [connected] from it throws a TypeError, and
    the call does not return normally. *)
Theorem destroy_before_bootstrap_throws :
  let m := fresh_machine all_well in
  handle (this m) = None /\
  state (this m) = init /\
  destroy (W := scripted all_well) m
    = (m, Throw (TypeError "Cannot read property 'connected' of null")).
Proof. cbv zeta. repeat split; reflexivity. Qed.

End RunnableRuns.

(** ** More about the line splitter *)

Section StreamMore.
Context `{D : StringDecoder}.
Import Events LogPassthrough LineSpec StreamSpec.

Lemma strip_append (a b : string) : strip (a +:+ b) = strip a +:+ strip b.
Proof.
  induction a as [|c a IH]; simpl; [reflexivity |].
  destruct (Js.is_line_terminator c); simpl; now rewrite IH.
Qed.

Lemma strip_clean (s : string) : no_terminator s = true -> strip s = s.
Proof.
  induction s as [|c s IH]; simpl; [reflexivity |].
  destruct (Js.is_line_terminator c); simpl; [discriminate |].
  intros H. now rewrite IH.
Qed.

Lemma glue_snoc (l : list string) (x : string) : glue (l ++ [x]) = glue l +:+ x.
Proof.
  unfold glue. induction l as [|y l IH]; simpl.
  - apply append_empty_r.
  - now rewrite IH, append_assoc.
Qed.

(** The segments and the rest are the text without its terminators. *)
Lemma Segments_strip buf lines rest :
  Segments buf lines rest -> glue lines +:+ rest = strip buf.
Proof.
  induction 1 as [s Hs | l c buf lines rest Hl Hc _ IH].
  - simpl. now rewrite strip_clean.
  - rewrite strip_append, (strip_clean l Hl). simpl. rewrite Hc.
    change (glue (l :: lines)) with (l +:+ glue lines).
    now rewrite append_assoc, IH.
Qed.

Lemma no_cr_append (a b : string) : no_cr (a +:+ b) = (no_cr a && no_cr b)%bool.
Proof.
  induction a as [|c a IH]; simpl; [reflexivity |].
  now rewrite IH, andb_assoc.
Qed.

(** Without carriage returns, the segments joined by line feeds are the
    text. *)
Lemma Segments_join buf lines rest :
  Segments buf lines rest -> no_cr buf = true ->
  String.concat nl (lines ++ [rest]) = buf.
Proof.
  induction 1 as [s Hs | l c buf lines rest Hl Hc _ IH]; intros N.
  - reflexivity.
  - rewrite no_cr_append in N. apply andb_prop in N as [_ N]. simpl in N.
    apply andb_prop in N as [Nc N].
    assert (c = "010"%char) as ->.
    { unfold Js.is_line_terminator in Hc.
      destruct (Ascii.eqb c "013"); [discriminate |].
      rewrite orb_false_r in Hc. now apply Ascii.eqb_eq. }
    specialize (IH N). simpl.
    destruct (lines ++ [rest]) as [|x xs] eqn:E; [now destruct lines |].
    now rewrite IH.
Qed.

Lemma Segments_one_line (p a b : string) (t : ascii) :
  no_terminator p = true -> no_terminator a = true -> no_terminator b = true ->
  Js.is_line_terminator t = true ->
  Segments ((p +:+ a) +:+ String t b) [p +:+ a] b.
Proof.
  intros Hp Ha Hb Ht. constructor; [| exact Ht | now constructor].
  now rewrite no_terminator_append, Hp, Ha.
Qed.

(** A stream nobody listens to: what a sequence of chunks leaves in the
    queue and in the carried text. *)
Lemma feed_unheard (c : chunk) (cs : list chunk) (lp : LogPassthrough.t) :
  dataListeners lp = [] ->
  exists lines rest,
    Segments (carry lp +:+ snd (decode (decoder lp) (c :: cs))) lines rest /\
    readableBuffer (fst (feed (c :: cs) lp)) = readableBuffer lp ++ lines /\
    carry (fst (feed (c :: cs) lp)) = rest /\
    decoder (fst (feed (c :: cs) lp)) = fst (decode (decoder lp) (c :: cs)) /\
    dataListeners (fst (feed (c :: cs) lp)) = [] /\
    snd (feed (c :: cs) lp) = [].
Proof.
  intros L. destruct (feed_spec cs c lp) as (lines & rest & S & E).
  exists lines, rest. rewrite E, push_each_spec. simpl. rewrite L. simpl.
  repeat split; auto.
Qed.

End StreamMore.

Section StreamResults.
Import Events LogPassthrough LineSpec StreamSpec.

Lemma decode_text (d : unit) (cs : list string) :
  decode (D := text_decoder) d cs = (d, glue cs).
Proof.
  induction cs as [|c cs IH]; [reflexivity |].
  change (decode (D := text_decoder) d (c :: cs))
    with (let '(d2, t2) := decode (D := text_decoder) d cs in (d2, c +:+ t2)).
  now rewrite IH.
Qed.

(** X1. For text chunks, where the text is cut into chunks does not
    matter: feeding a sequence of chunks does to the stream, and tells
    its listeners, exactly what feeding their concatenation as one chunk
    does. *)
Theorem chunk_boundaries_do_not_matter
    (c : string) (cs : list string) (lp : LogPassthrough.t (D := text_decoder)) :
  feed (D := text_decoder) (c :: cs) lp
  = feed (D := text_decoder) [glue (c :: cs)] lp.
Proof.
  destruct (feed_spec (D := text_decoder) cs c lp) as (l1 & r1 & S1 & E1).
  destruct (feed_spec (D := text_decoder) [] (glue (c :: cs)) lp) as (l2 & r2 & S2 & E2).
  etransitivity; [exact E1 |]. symmetry. etransitivity; [exact E2 |].
  clear E1 E2. rewrite !decode_text in S1, S2 |- *.
  cbn [fst snd] in S1, S2 |- *.
  change (glue [glue (c :: cs)]) with (glue (c :: cs) +:+ "") in S2.
  rewrite append_empty_r in S2.
  destruct (Segments_functional _ _ _ _ _ S1 S2) as [-> ->].
  now rewrite ?decode_text.
Qed.

(** X2. After any sequence of chunks the carried text contains no line
    terminator, no pushed line contains one, and there are as many
    pushed lines as the buffer (the old carried text and the decoded
    chunks) had terminators. *)
Theorem lines_and_carry_are_clean (D : StringDecoder)
    (c : chunk) (cs : list chunk) (lp : LogPassthrough.t) :
  exists lines rest,
    feed (c :: cs) lp
      = push_each lines (with_splitter (fst (decode (decoder lp) (c :: cs))) (Some rest) lp) /\
    forallb no_terminator lines = true /\
    carry (fst (feed (c :: cs) lp)) = rest /\
    no_terminator rest = true /\
    length lines = terminators (carry lp +:+ snd (decode (decoder lp) (c :: cs))).
Proof.
  destruct (feed_spec cs c lp) as (lines & rest & S & E).
  exists lines, rest.
  destruct (Segments_clean _ _ _ S) as [Hl Hr].
  split; [exact E |].
  split; [clear E S; induction Hl as [|x l Hx _ IH]; simpl; [| rewrite Hx, IH]; reflexivity |].
  split.
  - rewrite E. unfold carry.
    destruct (push_each_splitter lines
                (with_splitter (fst (decode (decoder lp) (c :: cs))) (Some rest) lp))
      as [_ ->].
    reflexivity.
  - split; [exact Hr | now apply Segments_count with (rest := rest)].
Qed.

(** X3. A chunk whose decoded text has no line terminator pushes nothing
    and tells nobody anything: it is appended to the carried text. *)
Theorem chunk_without_terminator_only_grows_carry (D : StringDecoder)
    (c : chunk) (lp : LogPassthrough.t) :
  no_terminator (carry lp) = true ->
  no_terminator (snd (decoder_write (decoder lp) c)) = true ->
  _transform c lp =
    (with_splitter (fst (decoder_write (decoder lp) c))
       (Some (carry lp +:+ snd (decoder_write (decoder lp) c))) lp, []).
Proof.
  intros Hc Ht. destruct (transform_spec c lp) as (lines & rest & S & E).
  assert (S' : Segments (carry lp +:+ snd (decoder_write (decoder lp) c)) []
                 (carry lp +:+ snd (decoder_write (decoder lp) c))).
  { constructor. now rewrite no_terminator_append, Hc, Ht. }
  destruct (Segments_functional _ _ _ _ _ S S') as [-> ->].
  exact E.
Qed.

(** X4. A chunk whose decoded text has one line terminator: the carried
    text and what comes before the terminator are pushed as one line, and
    what comes after it is carried on. In particular a chunk that is only
    a terminator pushes the carried text, be it empty. *)
Theorem chunk_with_one_terminator (D : StringDecoder)
    (c : chunk) (lp : LogPassthrough.t) (a b : string) (t : ascii) :
  snd (decoder_write (decoder lp) c) = a +:+ String t b ->
  Js.is_line_terminator t = true ->
  no_terminator (carry lp) = true ->
  no_terminator a = true ->
  no_terminator b = true ->
  _transform c lp =
    push_each [carry lp +:+ a]
      (with_splitter (fst (decoder_write (decoder lp) c)) (Some b) lp).
Proof.
  intros Et Ht Hc Ha Hb. destruct (transform_spec c lp) as (lines & rest & S & E).
  rewrite Et, <- append_assoc in S.
  destruct (Segments_functional _ _ _ _ _ S (Segments_one_line _ _ _ _ Hc Ha Hb Ht))
    as [-> ->].
  exact E.
Qed.

(** X5. [writeLine(line)] on a text stream that was not ended and is not
    stalled (somebody listens for 'data', or fewer than sixteen lines
    wait to be read and no written chunk waits), for a line without
    terminator: the chunk [line + '\n'] goes to the file sink if there
    is a writable one, and exactly one line is pushed, the carried text
    followed by [line]; nothing is carried on. *)
Theorem writeLine_pushes_one_line
    (line : string) (lp : LogPassthrough.t (D := text_decoder)) :
  ended lp = false -> destroyed lp = false ->
  stalled lp = false ->
  no_terminator (carry lp) = true ->
  no_terminator line = true ->
  writeLine (D := text_decoder) (fun s => s) line lp =
    push_each [carry lp +:+ line]
      (with_splitter (D := text_decoder) (decoder lp) (Some "")
         (with_fileStream (tee (D := text_decoder) (line +:+ nl) (fileStream lp)) lp)).
Proof.
  intros He Hd Hs Hc Hl. unfold writeLine, write, tee.
  set (lp' := with_fileStream _ lp).
  unfold super_write. change (ended lp') with (ended lp).
  change (destroyed lp') with (destroyed lp).
  change (stalled lp') with (stalled lp). rewrite He, Hd, Hs.
  destruct (transform_spec (D := text_decoder) (line +:+ nl) lp')
    as (lines & rest & S & E).
  change (carry lp') with (carry lp) in S.
  change (snd (decoder_write (decoder lp') (line +:+ nl))) with (line +:+ nl) in S.
  unfold nl in S. rewrite <- append_assoc in S.
  destruct (Segments_functional _ _ _ _ _ S
              (Segments_one_line (carry lp) line "" "010" Hc Hl eq_refl eq_refl))
    as [-> ->].
  exact E.
Qed.

(** X6. Line reassembly: when no carriage return occurs in the decoded
    text of the chunks given to a new stream, the pushed lines and the
    carried text, joined by line feeds, are that text again, wherever
    the chunks were cut. *)
Theorem lines_joined_by_line_feeds_give_the_text (D : StringDecoder)
    (c : chunk) (cs : list chunk) (file : option string) :
  no_cr (snd (decode decoder_new (c :: cs))) = true ->
  let lp := fst (feed (c :: cs) (LogPassthrough.new file)) in
  String.concat nl (readableBuffer lp ++ [carry lp]) = snd (decode decoder_new (c :: cs)).
Proof.
  intros N lp.
  destruct (feed_unheard c cs (LogPassthrough.new file) eq_refl)
    as (lines & rest & S & Hq & Hc & _).
  subst lp. rewrite Hq, Hc. simpl app.
  apply Segments_join; assumption.
Qed.

(** X7. Nothing is lost, doubled or moved: after any chunks given to a
    new stream, the pushed lines followed by the carried text are the
    decoded text without its terminators; after [_flush] the pushed lines
    alone are that, followed by what the decoder still held. *)
Theorem nothing_is_lost (D : StringDecoder)
    (c : chunk) (cs : list chunk) (file : option string) :
  let text := snd (decode decoder_new (c :: cs)) in
  let lp := fst (feed (c :: cs) (LogPassthrough.new file)) in
  glue (readableBuffer lp) +:+ carry lp = strip text /\
  glue (readableBuffer (fst (_flush lp)))
    = strip text +:+ snd (decoder_end (fst (decode decoder_new (c :: cs)))).
Proof.
  intros text lp.
  destruct (feed_unheard c cs (LogPassthrough.new file) eq_refl)
    as (lines & rest & S & Hq & Hc & Hd & Hl & _).
  fold lp in Hq, Hc, Hd, Hl. simpl app in Hq.
  assert (G : glue (readableBuffer lp) +:+ carry lp = strip text).
  { rewrite Hq, Hc. now apply Segments_strip. }
  split; [exact G |].
  rewrite flush_spec. cbv zeta. rewrite Hd.
  change (decoder (LogPassthrough.new file)) with decoder_new.
  set (ending := decoder_end (fst (decode decoder_new (c :: cs)))).
  rewrite <- G, append_assoc.
  destruct (carry lp +:+ snd ending) as [|a s] eqn:F.
  - cbn [fst readableBuffer with_splitter]. now rewrite append_empty_r.
  - unfold push, flow. cbn [dataListeners with_readableBuffer with_splitter].
    rewrite Hl. cbn [fst readableBuffer with_readableBuffer with_splitter].
    apply glue_snoc.
Qed.

Lemma calls_data (D : StringDecoder) (lp : LogPassthrough.t) (lines : list string) :
  forallb is_call (flat_map (emit_data lp) lines) = true.
Proof.
  induction lines as [|l lines IH]; simpl; [reflexivity |].
  rewrite forallb_app, IH, andb_true_r.
  unfold emit_data. induction (dataListeners lp) as [|[lv cb] ls IHl]; simpl; auto.
Qed.

Lemma push_each_calls (D : StringDecoder) (lines : list string) (lp : LogPassthrough.t) :
  forallb is_call (snd (push_each lines lp)) = true.
Proof.
  rewrite push_each_spec.
  destruct (dataListeners lp), lines; simpl; auto. apply (calls_data D lp).
Qed.

(** X8. Splitting never does anything but call the 'data' listeners: the
    effects of [_transform], of a sequence of chunks and of [_flush] are
    calls of client callbacks only; no promise is resolved, nothing is
    written to the console, no exception escapes. *)
Theorem splitting_only_calls_listeners (D : StringDecoder)
    (cs : list chunk) (lp : LogPassthrough.t) :
  forallb is_call (snd (feed cs lp)) = true /\
  forallb is_call (snd (_flush lp)) = true.
Proof.
  split.
  - destruct cs as [|c cs]; [reflexivity |].
    destruct (feed_spec cs c lp) as (lines & rest & _ & E).
    rewrite E. apply push_each_calls.
  - rewrite flush_spec. cbv zeta.
    destruct (carry lp +:+ snd (decoder_end (decoder lp))) as [|a s]; [reflexivity |].
    set (lp1 := with_splitter _ _ lp).
    pose proof (push_each_calls D [String a s] lp1) as H. simpl in H.
    destruct (push (String a s) lp1) as [lp2 e2]. simpl in *.
    now rewrite app_nil_r in H.
Qed.

Lemma transform_wiring (D : StringDecoder) (c : chunk) (lp : LogPassthrough.t) :
  wiring (fst (_transform c lp)) = wiring lp.
Proof.
  destruct (transform_spec c lp) as (lines & rest & _ & E). rewrite E.
  now destruct (push_each_quiet lines
                  (with_splitter (fst (decoder_write (decoder lp) c)) (Some rest) lp))
    as [-> _].
Qed.

Lemma write_fileStream (D : StringDecoder) (c : chunk) (lp : LogPassthrough.t) :
  fileStream (fst (write c lp)) = tee c (fileStream lp).
Proof.
  unfold write, tee, super_write.
  set (lp' := with_fileStream _ lp).
  destruct (destroyed lp'); [reflexivity |].
  destruct (ended lp'); [reflexivity |].
  destruct (stalled lp'); [reflexivity |].
  pose proof (transform_wiring D c lp') as H.
  apply wiring_listeners in H as (_ & _ & _ & H). exact H.
Qed.

(** X9. The file sink gets every chunk, raw: after [write] for each chunk
    of a sequence, a sink that was writable holds what it held followed
    by exactly these chunks in their order, whatever they contain and
    whatever state the stream is in. *)
Theorem file_gets_every_chunk (D : StringDecoder)
    (cs : list chunk) (lp : LogPassthrough.t) (w : LogPassthrough.WriteStream) :
  fileStream lp = Some w ->
  writable w = true ->
  fileStream (fst (write_each cs lp))
  = Some {| filename := filename w; writable := true;
            written := written w ++ cs;
            fs_closeListeners := fs_closeListeners w; fs_closed := fs_closed w |}.
Proof.
  revert lp w. induction cs as [|c cs IH]; intros lp w F Hw.
  - simpl. rewrite F, app_nil_r. destruct w; simpl in *. now subst.
  - simpl. pose proof (write_fileStream D c lp) as H. rewrite F in H.
    unfold tee in H. rewrite Hw in H.
    destruct (write c lp) as [lp1 e1]. simpl in H.
    specialize (IH lp1 (fs_write c w) H Hw).
    destruct (write_each cs lp1) as [lp2 e2]. simpl in *.
    now rewrite IH, <- app_assoc.
Qed.




(** X11. Without a file sink a second [finish] finds nothing left to do:
    the stream stays as the first call left it and no listener is called
    again; the call only resolves its own promise, after writing its
    error to the console when nobody listens for errors. *)
Theorem second_finish_only_resolves (D : StringDecoder)
    (err1 err2 : option Js.Error) (lp : LogPassthrough.t) :
  fileStream lp = None ->
  finish err2 (fst (finish err1 lp))
  = (fst (finish err1 lp),
     match err2 with
     | Some e =>
         if (0 <? length (errorListeners lp))%nat then [Resolve Finished]
         else [ConsoleError (unhandled e); Resolve Finished]
     | None => [Resolve Finished]
     end).
Proof.
  intros F.
  assert (H : destroyed (fst (finish err1 lp)) = true /\
              fileStream (fst (finish err1 lp)) = None /\
              errorListeners (fst (finish err1 lp)) = errorListeners lp).
  { unfold finish. pose proof (end_quiet lp) as (Hw & _).
    apply wiring_listeners in Hw as (_ & He & _ & Hfs).
    destruct (end_ lp) as [lpe e1]. simpl in *. rewrite Hfs, F.
    pose proof (destoryAndResolve_spec err1 lpe) as (Hw2 & Hd & _).
    apply wiring_listeners in Hw2 as (_ & He2 & _ & Hfs2).
    destruct (destoryAndResolve err1 lpe) as [lp2 e2]. simpl in *.
    repeat split; congruence. }
  destruct H as (Hd & Hf & He).
  set (lp1 := fst (finish err1 lp)) in *.
  unfold finish, end_. rewrite Hd, orb_true_r, Hf.
  unfold destoryAndResolve, destroy. rewrite Hd, He.
  destruct err2 as [e|]; [| reflexivity].
  destruct (0 <? length (errorListeners lp))%nat; reflexivity.
Qed.

End StreamResults.

Section StreamRuns.
Import Events LogPassthrough LineSpec StreamSpec.

Lemma chunk_without_terminator_only_grows_carry_witness :
  no_terminator (carry (LogPassthrough.new (D := text_decoder) None)) = true /\
  no_terminator "abc" = true /\
  _transform (D := text_decoder) "abc" (LogPassthrough.new None)
  = (with_splitter (D := text_decoder) tt (Some "abc") (LogPassthrough.new None), []).
Proof.
  split; [reflexivity |]. split; [reflexivity |].
  apply (chunk_without_terminator_only_grows_carry text_decoder "abc"
           (LogPassthrough.new None)); reflexivity.
Defined.

Lemma chunk_with_one_terminator_witness :
  _transform (D := text_decoder) ("abc" +:+ nl +:+ "def")
    (with_splitter (D := text_decoder) tt (Some "x") (LogPassthrough.new None))
  = push_each (D := text_decoder) ["xabc"]
      (with_splitter (D := text_decoder) tt (Some "def") (LogPassthrough.new None)).
Proof.
  apply (chunk_with_one_terminator text_decoder ("abc" +:+ nl +:+ "def")
           (with_splitter (D := text_decoder) tt (Some "x") (LogPassthrough.new None))
           "abc" "def" "010"); reflexivity.
Defined.

Lemma writeLine_pushes_one_line_witness :
  let lp := with_splitter (D := text_decoder) tt (Some "par")
              (LogPassthrough.new (Some "out.log")) in
  readableBuffer (fst (writeLine (D := text_decoder) (fun s => s) "tial" lp)) = ["partial"] /\
  carry (fst (writeLine (D := text_decoder) (fun s => s) "tial" lp)) = "" /\
  (written <$> fileStream (fst (writeLine (D := text_decoder) (fun s => s) "tial" lp)))
  = Some ["tial" +:+ nl].
Proof.
  cbv zeta.
  rewrite (writeLine_pushes_one_line "tial"
             (with_splitter (D := text_decoder) tt (Some "par")
                (LogPassthrough.new (Some "out.log")))
             eq_refl eq_refl eq_refl eq_refl eq_refl).
  repeat split; reflexivity.
Defined.

Lemma lines_joined_by_line_feeds_give_the_text_witness :
  no_cr ("foo" +:+ nl +:+ "bar" +:+ "baz" +:+ nl) = true /\
  (let lp := fst (feed (D := text_decoder) ["foo" +:+ nl +:+ "bar"; "baz" +:+ nl]
                    (LogPassthrough.new None)) in
   String.concat nl (readableBuffer lp ++ [carry lp])
   = "foo" +:+ nl +:+ "bar" +:+ "baz" +:+ nl).
Proof.
  split; [reflexivity |].
  apply (lines_joined_by_line_feeds_give_the_text text_decoder
           ("foo" +:+ nl +:+ "bar") ["baz" +:+ nl] None).
  reflexivity.
Defined.

Lemma file_gets_every_chunk_witness :
  fileStream (LogPassthrough.new (D := text_decoder) (Some "out.log"))
    = Some (createWriteStream (D := text_decoder) "out.log") /\
  (written <$> fileStream
     (fst (write_each (D := text_decoder) ["a" +:+ nl +:+ "b"; "c"]
             (LogPassthrough.new (Some "out.log")))))
  = Some ["a" +:+ nl +:+ "b"; "c"].
Proof.
  split; [reflexivity |].
  rewrite (file_gets_every_chunk text_decoder ["a" +:+ nl +:+ "b"; "c"]
             (LogPassthrough.new (Some "out.log"))
             (createWriteStream (D := text_decoder) "out.log") eq_refl eq_refl).
  reflexivity.
Defined.

Lemma second_finish_only_resolves_witness :
  let lp := LogPassthrough.new (D := text_decoder) None in
  fileStream lp = None /\
  snd (finish (Some (Js.mkError "Error" "late")) (fst (finish None lp)))
  = [ConsoleError (unhandled (Js.mkError "Error" "late")); Resolve Finished].
Proof.
  cbv zeta. split; [reflexivity |].
  rewrite (second_finish_only_resolves text_decoder None
             (Some (Js.mkError "Error" "late")) (LogPassthrough.new None) eq_refl).
  reflexivity.
Defined.

End StreamRuns.

(** ** More about the hub and the registry *)

Section HubMore.
Context `{D : StringDecoder}.
Import Events LineSpec.

Lemma listen_all_dispatcher (cbs : list Callback) (tr : Tracer.t) :
  Tracer.dispatcher (listen_all cbs tr) = Tracer.dispatcher tr ++ cbs.
Proof.
  induction cbs as [|cb cbs IH] using rev_ind.
  - simpl. now rewrite app_nil_r.
  - rewrite listen_all_snoc.
    pose proof (listen_spec cb (listen_all cbs tr)) as H. cbv zeta in H.
    destruct H as (_ & _ & _ & _ & _ & _ & _ & _ & _ & _ & _ & _ & H).
    now rewrite H, IH, app_assoc.
Qed.

(** X12. [dispatch] hands the event to the callbacks that [listen] has
    registered so far, once each, in the order they were registered; on
    a hub nobody listened to it reaches nobody. *)
Theorem dispatch_reaches_the_listeners
    (fresh : string) (opts : option Tracer.TraceOptions)
    (cbs : list Callback) (ev : PipcookEvent) :
  Tracer.dispatch ev (listen_all cbs (Tracer.new fresh opts))
  = map (fun cb => Call cb ev) cbs.
Proof. unfold Tracer.dispatch. now rewrite listen_all_dispatcher. Qed.

(** X13. [create] registers the new hub under the id it drew: looking
    that id up gives the new hub (a hub registered under the same id is
    replaced), and every other id gives what it gave before. *)
Theorem create_then_get
    (fresh : string) (opts : option Tracer.TraceOptions)
    (m : gmap string Tracer.t) (j : string) :
  Tracer.id (snd (TraceManager.create fresh opts m)) = fresh /\
  TraceManager.get j (fst (TraceManager.create fresh opts m))
  = if decide (fresh = j) then Some (snd (TraceManager.create fresh opts m))
    else TraceManager.get j m.
Proof.
  unfold TraceManager.create, TraceManager.get. simpl.
  split; [reflexivity | apply lookup_insert].
Qed.

(** X14. Creating a hub under an unused id and destroying it again gives
    back the registry as it was; the hub that is destroyed is the one
    that was created. *)
Theorem create_then_destroy_restores
    (fresh : string) (opts : option Tracer.TraceOptions) (err : option Js.Error)
    (m : gmap string Tracer.t) :
  m !! fresh = None ->
  TraceManager.destroy fresh err (fst (TraceManager.create fresh opts m))
  = Js.Return {| TraceManager.tracerMap := m;
                 TraceManager.logged := [];
                 TraceManager.destroyed :=
                   Some (Tracer.destroy err (Tracer.new fresh opts)) |}.
Proof.
  intros H. unfold TraceManager.destroy, TraceManager.create. simpl.
  rewrite lookup_insert_eq. now rewrite delete_insert_id.
Qed.

(** X15. [TraceManager.destroy] touches one entry only: in the registry
    it leaves, the id is not registered, and every other id gives what
    it gave before, whether or not the id was registered. *)
Theorem destroy_leaves_other_hubs
    (id : string) (err : option Js.Error) (m : gmap string Tracer.t)
    (d : TraceManager.Destroyed) :
  TraceManager.destroy id err m = Js.Return d ->
  forall j, TraceManager.get j (TraceManager.tracerMap d)
            = if decide (id = j) then None else TraceManager.get j m.
Proof.
  unfold TraceManager.destroy, TraceManager.get.
  destruct (m !! id) as [tracer|] eqn:E; intros [= <-]; simpl; intros j.
  - apply lookup_delete.
  - destruct (decide (id = j)) as [<-|]; [exact E | reflexivity].
Qed.

End HubMore.

Section HubRuns.
Import Events.

Lemma create_then_destroy_restores_witness :
  (∅ : gmap string (Tracer.t (D := text_decoder))) !! "job1" = None /\
  TraceManager.destroy (D := text_decoder) "job1" None
    (fst (TraceManager.create "job1" None ∅))
  = Js.Return {| TraceManager.tracerMap := ∅;
                 TraceManager.logged := [];
                 TraceManager.destroyed :=
                   Some (Tracer.destroy None (Tracer.new "job1" None)) |}.
Proof.
  split; [reflexivity |].
  apply (create_then_destroy_restores (D := text_decoder) "job1" None None ∅).
  reflexivity.
Defined.

Lemma destroy_leaves_other_hubs_witness :
  let m : gmap string (Tracer.t (D := text_decoder)) :=
    fst (TraceManager.create "job1" None ∅) in
  let d := {| TraceManager.tracerMap := delete "job1" m;
              TraceManager.logged := [];
              TraceManager.destroyed :=
                Some (Tracer.destroy None (Tracer.new "job1" None)) |} in
  TraceManager.destroy "job1" None m = Js.Return d /\
  TraceManager.get "job1" (TraceManager.tracerMap d) = None /\
  TraceManager.get "job2" (TraceManager.tracerMap d) = TraceManager.get "job2" m.
Proof.
  cbv zeta.
  assert (E : TraceManager.destroy (D := text_decoder) "job1" None
                (fst (TraceManager.create "job1" None ∅))
              = Js.Return
                  {| TraceManager.tracerMap :=
                       delete "job1" (fst (TraceManager.create "job1" None ∅));
                     TraceManager.logged := [];
                     TraceManager.destroyed :=
                       Some (Tracer.destroy None (Tracer.new "job1" None)) |}).
  { unfold TraceManager.destroy, TraceManager.create. simpl.
    now rewrite lookup_insert_eq. }
  split; [exact E |].
  split.
  - exact (destroy_leaves_other_hubs (D := text_decoder) "job1" None _ _ E "job1").
  - exact (destroy_leaves_other_hubs (D := text_decoder) "job1" None _ _ E "job2").
Defined.

End HubRuns.

(** ** More about the runnable *)

Section RunnableMore.
Import Js PluginRunnable RunnableSpec.
Context `{W : World}.

#[local] Arguments truthy : simpl never.
#[local] Arguments Z_truthy : simpl never.
#[local] Arguments String.append : simpl never.


(** X17. A [bootstrap] that throws (a directory that cannot be made, a
    handshake that fails or is refused) leaves the state of the runnable
    as it was: a new runnable stays [init]. *)
Theorem bootstrap_throw_keeps_state (arg : BootstrapArg) (m m' : Machine) (e : Error) :
  bootstrap arg m = (m', Throw e) ->
  state (this m') = state (this m).
Proof.
  unfold bootstrap, all2, attempt, bind, read, update, ensureDir, debug, on_proxy,
    request, throw, ret, bind, read. simpl.
  destruct (Z_truthy (pluginLoadNotRespondingTimeout_arg arg)); simpl;
    world_cases; try discriminate;
    intros [= <- _]; reflexivity.
Qed.




(** X20. [valueOf] never changes the runnable. Before [bootstrap] there
    is no proxy: the call throws a TypeError and requests nothing;
    otherwise it makes the one request. *)
Theorem valueOf_keeps_runnable (resp : RunnableResponse) (m : Machine) :
  this (fst (valueOf resp m)) = this m /\
  match ipcProxy (this m) with
  | None => exists msg, valueOf resp m = (m, Throw (TypeError msg))
  | Some _ => trace (fst (valueOf resp m)) = trace m ++ [ValueOf resp]
  end.
Proof.
  unfold valueOf, on_proxy, bind, read, request, throw. simpl.
  destruct (ipcProxy (this m)); simpl.
  - world_cases; split; reflexivity.
  - split; [reflexivity | eexists; reflexivity].
Qed.

(** X21. [destroy] when the child is connected and acknowledges the
    request: the runnable is marked canceled and nothing else changes,
    the state included; the one request made is [destroy] with 1000 ms,
    and no signal is sent. *)
Theorem destroy_acknowledged (m : Machine) (c : ChildProcess) (p : Entry) (w' : world) :
  handle (this m) = Some c ->
  connected c = true ->
  ipcProxy (this m) = Some p ->
  ipc_destroy waitForDestroyed (the_world m) = (w', Return tt) ->
  destroy m =
    ({| the_world := w';
        this := with_canceled (Some true) (this m);
        trace := trace m ++ [Destroy 1000] |},
     Return tt).
Proof.
  intros H C P F.
  unfold destroy, bind, read, try_catch, on_proxy, update, request, bind, read.
  rewrite H, C. simpl. rewrite P. simpl. rewrite F. reflexivity.
Qed.

(** X22. [destroy] when the child exists and is not connected returns at
    once: no request, no signal, and the runnable (state, canceled flag
    and handle) is as before. *)
Theorem destroy_without_connection_changes_nothing (m : Machine) (c : ChildProcess) :
  handle (this m) = Some c ->
  connected c = false ->
  destroy m = (m, Return tt).
Proof. apply destroy_disconnected_noop. Qed.

(** X23. Once the runnable has a handle, [destroy] never throws, whatever
    the child and the proxy do (also when there is no proxy); and unless
    the child was not connected the runnable is marked canceled. *)
Theorem destroy_with_handle_returns (m : Machine) (c : ChildProcess) :
  handle (this m) = Some c ->
  snd (destroy m) = Return tt /\
  canceled (this (fst (destroy m)))
  = if connected c then Some true else canceled (this m).
Proof.
  intros H.
  unfold destroy, bind, read, try_catch, on_proxy, kill, update, request, throw, bind, read.
  rewrite H. destruct (connected c); simpl; [| split; reflexivity].
  destruct (ipcProxy (this m)); simpl; world_cases; split; reflexivity.
Qed.

End RunnableMore.

Section RunnableMoreRuns.
Import Js PluginRunnable RunnableSpec.


Lemma bootstrap_throw_keeps_state_witness :
  snd (bootstrap (W := scripted handshake_refused) sample_arg
         (fresh_machine handshake_refused))
    = Throw (TypeError ("created runnable " +:+ dquote +:+ "job1" +:+ dquote +:+ " failed.")) /\
  state (this (fst (bootstrap (W := scripted handshake_refused) sample_arg
                      (fresh_machine handshake_refused)))) = init.
Proof.
  split; [reflexivity |].
  apply (bootstrap_throw_keeps_state (W := scripted handshake_refused) sample_arg
           (fresh_machine handshake_refused) _
           (TypeError ("created runnable " +:+ dquote +:+ "job1" +:+ dquote +:+ " failed."))).
  reflexivity.
Defined.


Lemma destroy_acknowledged_witness :
  let m := ready_machine all_well in
  let m' := fst (destroy (W := scripted all_well) m) in
  snd (destroy (W := scripted all_well) m) = Return tt /\
  state (this m') = idle /\
  canceled (this m') = Some true /\
  handle (this m') = Some {| pid := 1; connected := true; signals := [] |} /\
  trace m' = trace m ++ [Destroy 1000].
Proof.
  cbv zeta.
  rewrite (destroy_acknowledged (W := scripted all_well) (ready_machine all_well)
             {| pid := 1; connected := true; signals := [] |} {| proxied := 1 |} tt
             eq_refl eq_refl eq_refl eq_refl).
  repeat split; reflexivity.
Defined.

Lemma destroy_without_connection_changes_nothing_witness :
  let m := boot (W := scripted all_well) tt (disconnected (this (ready_machine all_well))) in
  handle (this m) = Some {| pid := 1; connected := false; signals := [] |} /\
  destroy (W := scripted all_well) m = (m, Return tt).
Proof.
  cbv zeta. split; [reflexivity |].
  apply (destroy_without_connection_changes_nothing (W := scripted all_well)
           (boot (W := scripted all_well) tt (disconnected (this (ready_machine all_well))))
           {| pid := 1; connected := false; signals := [] |});
    reflexivity.
Defined.

Lemma destroy_with_handle_returns_witness :
  let m := ready_machine destroy_times_out in
  handle (this m) = Some {| pid := 1; connected := true; signals := [] |} /\
  snd (destroy (W := scripted destroy_times_out) m) = Return tt /\
  canceled (this (fst (destroy (W := scripted destroy_times_out) m))) = Some true.
Proof.
  cbv zeta. split; [reflexivity |].
  apply (destroy_with_handle_returns (W := scripted destroy_times_out)
           (ready_machine destroy_times_out)
           {| pid := 1; connected := true; signals := [] |}).
  reflexivity.
Defined.

End RunnableMoreRuns.

(** ** Finishing a stream that still carries text *)

Section FinishOrder.
Import Events LogPassthrough.

#[local] Arguments destoryAndResolve : simpl never.

(** X24. [finish] on a stream that was neither ended nor destroyed, and
    whose file sink, if there is one, has not closed, flushes before it
    resolves: the trace of the call (with the 'close' of the file sink,
    if there is one) begins with everything [_flush] tells the
    listeners, and the promise is resolved only after that, so a last
    line without terminator is delivered before the caller is told that
    the stream is finished. (While written chunks still wait and nobody
    listens, [_flush] has nothing to tell.) *)
Theorem finish_flushes_before_resolving (D : StringDecoder)
    (err : option Js.Error) (lp : LogPassthrough.t) :
  ended lp = false -> destroyed lp = false ->
  sink_open lp = true ->
  exists rest,
    snd (finish_and_close err lp) = snd (_flush lp) ++ rest /\
    In (Resolve Finished) rest.
Proof.
  intros He Hd O.
  assert (E : snd (end_ lp) = snd (_flush lp)).
  { unfold end_. rewrite He, Hd. simpl. destruct (waiting lp) eqn:W.
    - simpl. symmetry. apply flush_unheard. unfold waiting in W.
      destruct (dataListeners lp); [reflexivity | discriminate].
    - now destruct (_flush lp). }
  rewrite <- E. unfold finish_and_close, finish.
  pose proof (end_quiet lp) as (Hw & _).
  apply wiring_listeners in Hw as (_ & _ & _ & Hfs).
  destruct (end_ lp) as [lpe e1]. cbn [fst snd] in *.
  destruct (fileStream lpe) as [w|] eqn:F.
  - unfold sink_open in O. rewrite <- Hfs in O. apply negb_true_iff in O.
    unfold fileStream_close. cbn [fileStream with_fileStream].
    cbn [writable fs_closed fs_end fs_on_close]. rewrite O. cbn [orb].
    set (lp' := with_fileStream _ (with_fileStream _ lpe)).
    pose proof (run_fs_close_spec (fs_closeListeners (fs_end (fs_on_close err w))) lp')
      as (_ & _ & _ & H).
    destruct H as (_ & Hr & _); [simpl; now destruct (fs_closeListeners w) |].
    destruct (run_fs_close _ lp') as [lp2 e2]. simpl in *.
    exists e2. split; [reflexivity | exact Hr].
  - pose proof (destoryAndResolve_spec err lpe) as (Hw & _ & Hr & _).
    apply wiring_listeners in Hw as (_ & _ & _ & Hfs2).
    destruct (destoryAndResolve err lpe) as [lp2 e2]. simpl in *.
    unfold fileStream_close. rewrite Hfs2, F. simpl. rewrite app_nil_r.
    exists e2. split; [reflexivity | exact Hr].
Qed.

Lemma finish_flushes_before_resolving_witness :
  let lp := with_splitter (D := text_decoder) tt (Some "last words")
              (Tracer.stdout (fst (Tracer.listen 7 (Tracer.new "job" None)))) in
  snd (_flush lp) = [Call 7 (new_LogEvent info "last words")] /\
  exists rest,
    snd (finish_and_close None lp) = snd (_flush lp) ++ rest /\
    In (Resolve Finished) rest.
Proof.
  cbv zeta. split; [reflexivity |].
  apply (finish_flushes_before_resolving text_decoder None
           (with_splitter (D := text_decoder) tt (Some "last words")
              (Tracer.stdout (fst (Tracer.listen 7 (Tracer.new "job" None))))));
    reflexivity.
Defined.

End FinishOrder.
